(** * EPC scraper: a shallow embedding of the extraction, validation,
    de-duplication and monitoring logic, with the properties of its
    specification.

    Conventions of the embedding.
    - A Python [str] is a [string]: the sequence of the bytes of its UTF-8
      encoding.  The order of [sorted] on [str] (code points) is the
      lexicographic order on these bytes, [String.le].  Case mapping and
      white space are the ones of the ASCII range; bytes above 127 are
      neither cased nor white space.
    - A [Dict[str, Any]] is a [gmap string pyval]; a [Set[str]] is a
      [gset string].
    - An uncaught exception is the outcome [Raise].
    - What belongs to the interpreter or to a library ([repr], [urljoin],
      the HTML parser, the date parser, the clock) is a variable of the
      section that uses it. *)

From Stdlib Require Import String Ascii ZArith Lia.
From stdpp Require Import base option list gmap sets strings sorting pretty.

Local Open Scope string_scope.
Local Open Scope list_scope.
#[local] Set Warnings "-clear-no-such-hyp".

(** ** Python values and built-ins *)

Module Py.

(** The values a record or a decoded JSON document holds.  Numbers are
    integers here: the floats of the scraped numeric fields are only stored
    and never inspected by the functions below. *)
#[warnings="-register-all"]
Inductive pyval : Type :=
| PNone
| PBool (b : bool)
| PInt (z : Z)
| PStr (s : string)
| PList (l : list pyval)
| PDict (d : gmap string pyval).

Abbreviation epc_record := (gmap string pyval).

Inductive exn : Type :=
| TypeError
| IndexError
| OSError.

Inductive result (A : Type) : Type :=
| Ok (a : A)
| Raise (e : exn).
Arguments Ok {A} a.
Arguments Raise {A} e.

#[export] Instance result_ret : MRet result := λ A a, Ok a.
#[export] Instance result_bind : MBind result := λ A B k m,
  match m with
  | Ok a => k a
  | Raise e => Raise e
  end.

(** [bool(v)]: the truth value of [v]. *)
Definition truthy (v : pyval) : bool :=
  match v with
  | PNone => false
  | PBool b => b
  | PInt z => negb (Z.eqb z 0)
  | PStr s => negb (String.eqb s "")
  | PList l => match l with [] => false | _ => true end
  | PDict d => match map_to_list d with [] => false | _ => true end
  end.

(** [d.get(k)]: the value under [k], [None] when the key is absent. *)
Definition get (d : epc_record) (k : string) : pyval :=
  default PNone (d !! k).

(** [v is None] *)
Definition is_none (v : pyval) : bool :=
  match v with PNone => true | _ => false end.

(** [d.setdefault(k, v)] *)
Definition setdefault (d : epc_record) (k : string) (v : pyval) : epc_record :=
  match d !! k with
  | Some _ => d
  | None => <[ k := v ]> d
  end.

(** The [id] of a record as the loops over records use it:
    [rec_id = rec.get("id")] followed by [if not rec_id]. *)
Inductive id_view : Type :=
| NoId
| StrId (s : string)
| OtherId.

Definition view_id (rec : epc_record) : id_view :=
  let rec_id := get rec "id" in
  if truthy rec_id
  then match rec_id with PStr s => StrId s | _ => OtherId end
  else NoId.

(** [sorted(xs)] on a list of [str]. *)
Definition sorted (l : list string) : list string :=
  merge_sort String.le l.

(** [sorted(s)] on a set of [str]. *)
Definition sorted_set (s : gset string) : list string :=
  sorted (elements s).

(** The one-character strings of [s], as iterating a [str] yields them. *)
Fixpoint chars (s : string) : list string :=
  match s with
  | EmptyString => []
  | String a s' => String a EmptyString :: chars s'
  end.

(** [for x in v]: the items an iteration yields; scalars are not iterable. *)
Definition iterate (v : pyval) : result (list pyval) :=
  match v with
  | PList l => Ok l
  | PStr s => Ok (PStr <$> chars s)
  | PDict d => Ok (PStr <$> (map_to_list d).*1)
  | PNone | PBool _ | PInt _ => Raise TypeError
  end.

(** [c.isspace()] on the ASCII range. *)
Definition isspace (a : ascii) : bool :=
  match a with
  | "009" | "010" | "011" | "012" | "013"
  | "028" | "029" | "030" | "031" | " " => true
  | _ => false
  end%char.

Definition upper_char (a : ascii) : ascii :=
  let n := nat_of_ascii a in
  if (97 <=? n)%nat && (n <=? 122)%nat then ascii_of_nat (n - 32) else a.

Definition lower_char (a : ascii) : ascii :=
  let n := nat_of_ascii a in
  if (65 <=? n)%nat && (n <=? 90)%nat then ascii_of_nat (n + 32) else a.

Fixpoint map_chars (f : ascii → ascii) (s : string) : string :=
  match s with
  | EmptyString => EmptyString
  | String a s' => String (f a) (map_chars f s')
  end.

(** [s.upper()] and [s.lower()] *)
Definition upper : string → string := map_chars upper_char.
Definition lower : string → string := map_chars lower_char.

Fixpoint lstrip (s : string) : string :=
  match s with
  | EmptyString => EmptyString
  | String a s' => if isspace a then lstrip s' else s
  end.

Fixpoint rstrip (s : string) : string :=
  match s with
  | EmptyString => EmptyString
  | String a s' =>
      match rstrip s' with
      | EmptyString => if isspace a then EmptyString else String a EmptyString
      | r => String a r
      end
  end.

(** [s.strip()] *)
Definition strip (s : string) : string := rstrip (lstrip s).

(** Puts [a] in front of the first token of [ts]. *)
Definition push_char (a : ascii) (ts : list string) : list string :=
  match ts with
  | [] => [String a EmptyString]
  | t :: ts' => String a t :: ts'
  end.

(** [s.split()]: the maximal runs of characters that are not white space. *)
Fixpoint split (s : string) : list string :=
  match s with
  | EmptyString => []
  | String a s' =>
      if isspace a then split s'
      else match s' with
           | EmptyString => [String a EmptyString]
           | String b _ =>
               if isspace b then String a EmptyString :: split s'
               else push_char a (split s')
           end
  end.

(** [s.startswith(p)] *)
Definition startswith (s p : string) : bool := String.prefix p s.

(** [s.find(sub)]: the least index at which [sub] occurs, [None] for -1. *)
Fixpoint find (s sub : string) : option nat :=
  if String.prefix sub s then Some 0%nat
  else match s with
       | EmptyString => None
       | String _ s' => S <$> find s' sub
       end.

(** [sub in s] *)
Definition contains (s sub : string) : bool :=
  bool_decide (is_Some (find s sub)).

(** [s[n:]] *)
Fixpoint slice_from (n : nat) (s : string) : string :=
  match n, s with
  | O, _ => s
  | S n', String _ s' => slice_from n' s'
  | S _, EmptyString => EmptyString
  end.

(** [sep.join(xs)] *)
Definition join (sep : string) (xs : list string) : string :=
  String.concat sep xs.

Section Str.
(** [repr(v)], which [str(v)] falls back to for every value that is not a
    [str]. *)
Variable repr : pyval → string.

Definition str (v : pyval) : string :=
  match v with
  | PStr s => s
  | _ => repr v
  end.
End Str.

End Py.

Export Py.

(** ** monitoring/tracker.py *)

Module Tracker.

(** A file that exists: one that cannot be opened for reading, or what
    [json.load] makes of its text, a decoded document or a
    [JSONDecodeError]. *)
Inductive file : Type :=
| Json (doc : pyval)
| Malformed
| Unreadable.

(** The file system, by path; an absent path is a file that does not
    exist. *)
Abbreviation filesystem := (gmap string file).

Section WithRepr.
Variable repr : pyval → string.

(** [{str(x) for x in xs}] *)
Definition str_set (xs : list pyval) : gset string :=
  list_to_set (str repr <$> xs).

Definition load_state (fs : filesystem) (path : string)
  : result (gset string) :=
  match fs !! path with
  | None => Ok ∅
  | Some Unreadable => Raise OSError
  | Some Malformed => Ok ∅
  | Some (Json data) =>
      match data with
      | PList xs => Ok (str_set xs)
      | PDict d =>
          match d !! "ids" with
          | Some ids => xs ← iterate ids; Ok (str_set xs)
          | None => Ok ∅
          end
      | _ => Ok ∅
      end
  end.
End WithRepr.

(** [json.dump] writes a text that [json.load] decodes to the dumped
    document. *)
Definition save_state (fs : filesystem) (path : string) (ids : list string)
  : filesystem :=
  let data : epc_record :=
    {[ "ids" := PList (PStr <$> sorted_set (list_to_set ids)) ]} in
  <[ path := Json (PDict data) ]> fs.

Definition stub (epc_id : string) : epc_record :=
  {[ "id" := PStr epc_id; "removed" := PBool true ]}.

(** One turn of the loop over [current_records]; the state is
    [(current_ids, new_records)].  The ID sets are [Set[str]]: a truthy [id]
    that is not a [str] has no place in them, and the embedding answers
    [None] there. *)
Definition detect_step (previous_ids : gset string)
    (st : option (gset string * list epc_record)) (rec : epc_record)
  : option (gset string * list epc_record) :=
  '(current_ids, new_records) ← st;
  match view_id rec with
  | NoId => Some (current_ids, new_records)
  | StrId rec_id =>
      let current_ids := current_ids ∪ {[ rec_id ]} in
      if decide (rec_id ∈ previous_ids)
      then Some (current_ids, new_records)
      else Some (current_ids, new_records ++ [rec])
  | OtherId => None
  end.

Definition detect_changes (current_records : list epc_record)
    (previous_ids : gset string)
  : option (list epc_record * list epc_record * gset string) :=
  '(current_ids, new_records) ←
    foldl (detect_step previous_ids) (Some (∅, [])) current_records;
  let removed_ids := previous_ids ∖ current_ids in
  let removed_records := stub <$> sorted_set removed_ids in
  let updated_id_set := previous_ids ∪ current_ids in
  Some (new_records, removed_records, updated_id_set).

End Tracker.

(** ** extractors/utils_validation.py *)

Module Validation.

(** A [datetime]: its position on its own time line, and whether it carries
    a time zone. *)
Record datetime : Type := Datetime { wall : Z; aware : bool }.

(** [dt < ref]: comparing a naive with an aware [datetime] is a
    [TypeError]. *)
Definition datetime_lt (dt ref : datetime) : result bool :=
  if Bool.eqb (aware dt) (aware ref)
  then Ok (wall dt <? wall ref)%Z
  else Raise TypeError.

Definition of_optional_bool (b : option bool) : pyval :=
  match b with
  | Some b => PBool b
  | None => PNone
  end.

Definition defaults : list (string * pyval) :=
  [ ("url", PNone); ("postCode", PNone); ("locality", PNone);
    ("address", PNone); ("rating", PNone); ("id", PNone);
    ("propertyType", PNone); ("floorArea", PNone); ("currentScore", PNone);
    ("potentialScore", PNone); ("primaryUsage", PNone);
    ("averageBill", PNone); ("potentialSaving", PNone);
    ("averageCostYear", PNone); ("co2Produces", PNone);
    ("co2Potential", PNone); ("features", PList []); ("changes", PList []);
    ("assessorName", PNone); ("assessorPhone", PNone);
    ("assessorEmail", PNone); ("accreditationScheme", PNone);
    ("accreditationAssessorID", PNone); ("accreditationPhone", PNone);
    ("accreditationEmail", PNone); ("assessmentDate", PNone);
    ("certificateDate", PNone); ("assessmentType", PNone);
    ("validtillDate", PNone); ("expired", PNone) ].

Definition required_fields : list string :=
  [ "url"; "id"; "postCode"; "address" ].

(** [list("ABCDEFG")] *)
Definition bands : list string := chars "ABCDEFG".

Definition missing_error (field : string) : string :=
  "Missing required field '" +:+ field +:+ "'".

Definition expired_error : string :=
  "validtillDate present but expired flag missing".

Section WithRuntime.
(** [dateutil.parser.parse(s, dayfirst=True)] on a [str]; [None] stands for
    its [ValueError] and [OverflowError]. *)
Variable dateutil_parse : string → option datetime.
(** [datetime.utcnow()], a naive [datetime]. *)
Variable utcnow : Z.
Variable repr : pyval → string.

(** The parser rejects whatever is not a [str] with a [TypeError], which is
    caught as well. *)
Definition parse_date (value : pyval) : option datetime :=
  if truthy value
  then match value with PStr s => dateutil_parse s | _ => None end
  else None.

Definition is_expired (valid_till : pyval) (reference : option datetime)
  : result (option bool) :=
  if truthy valid_till
  then
    let ref := default (Datetime utcnow false) reference in
    match parse_date valid_till with
    | None => Ok None
    | Some dt => b ← datetime_lt dt ref; Ok (Some b)
    end
  else Ok None.

Definition normalize_record (record : epc_record) : result epc_record :=
  let record :=
    foldl (λ record '(key, default), setdefault record key default)
          record defaults in
  if is_none (get record "expired")
  then
    e ← is_expired (get record "validtillDate") None;
    Ok (<[ "expired" := of_optional_bool e ]> record)
  else Ok record.

Definition rating_error (rating : pyval) : string :=
  "Unexpected rating band: " +:+ str repr rating.

(** The rating check: the errors it adds to [errors]. *)
Definition check_rating (record : epc_record) (errors : list string)
  : result (list string) :=
  if truthy (get record "rating")
  then
    let rating := upper (strip (str repr (get record "rating"))) in
    let parts := split rating in
    match last parts with
    | None => Raise IndexError
    | Some band =>
        if decide (band ∈ bands) then Ok errors
        else Ok (errors ++ [rating_error (get record "rating")])
    end
  else Ok errors.

Definition validate_epc_record (record : epc_record)
  : result (bool * list string) :=
  let errors :=
    foldl (λ errors field,
             if truthy (get record field) then errors
             else errors ++ [missing_error field])
          [] required_fields in
  errors ← check_rating record errors;
  let errors :=
    if truthy (get record "validtillDate") && is_none (get record "expired")
    then errors ++ [expired_error]
    else errors in
  Ok (bool_decide (errors = []), errors).

End WithRuntime.

End Validation.

(** ** main.py *)

Module Main.

(** [seen[k] = v] on a [dict], which keeps its keys in insertion order: an
    existing key keeps its place. *)
Fixpoint dict_set (seen : list (string * epc_record)) (k : string) (v : epc_record)
  : list (string * epc_record) :=
  match seen with
  | [] => [(k, v)]
  | (k', v') :: rest =>
      if decide (k' = k) then (k', v) :: rest
      else (k', v') :: dict_set rest k v
  end.

(** [f"anonymous-{n}"] *)
Definition anonymous (n : nat) : string := "anonymous-" +:+ pretty n.

(** One turn of the loop; the state is [(seen, anonymous_counter)].  The
    records of the list are distinct objects, as the crawl builds them.  As
    in the tracker, a truthy [id] that is not a [str] is outside the
    embedding. *)
Definition dedup_step (st : option (list (string * epc_record) * nat))
    (rec : epc_record) : option (list (string * epc_record) * nat) :=
  '(seen, anonymous_counter) ← st;
  match view_id rec with
  | NoId =>
      let anonymous_counter := S anonymous_counter in
      let rec_id := anonymous anonymous_counter in
      let rec := <[ "id" := PStr rec_id ]> rec in
      Some (dict_set seen rec_id rec, anonymous_counter)
  | StrId rec_id => Some (dict_set seen rec_id rec, anonymous_counter)
  | OtherId => None
  end.

Definition deduplicate_records (records : list epc_record)
  : option (list epc_record) :=
  '(seen, _) ← foldl dedup_step (Some ([], 0%nat)) records;
  Some (seen.*2).

End Main.

(** ** extractors/epc_parser.py *)

Module Parser.

(** The parse tree of a page: tags, with their attributes and children, and
    the strings between them that [get_text] reads. *)
#[warnings="-register-all"]
Inductive node : Type :=
| Text (s : string)
| Tag (name : string) (attrs : gmap string string) (children : list node).

(** [tag.descendants]: everything below a tag, in document order. *)
Fixpoint descendants (n : node) : list node :=
  match n with
  | Text _ => []
  | Tag _ _ children =>
      (fix walk (cs : list node) : list node :=
         match cs with
         | [] => []
         | c :: cs' => c :: descendants c ++ walk cs'
         end) children
  end.

Definition is_tag (names : list string) (n : node) : bool :=
  match n with
  | Text _ => false
  | Tag name _ _ => bool_decide (name ∈ names)
  end.

(** [tag.find_all(names)] *)
Definition find_all (names : list string) (n : node) : list node :=
  filter (is_tag names) (descendants n).

(** The strings below a tag, stripped, the empty ones left out. *)
Definition stripped_string (n : node) : option string :=
  match n with
  | Text s => let s := strip s in if decide (s = "") then None else Some s
  | Tag _ _ _ => None
  end.

(** [tag.get_text(sep, strip=True)] *)
Definition get_text (sep : string) (n : node) : string :=
  join sep (omap stripped_string (descendants n)).

(** The [href] of an [a] tag that has one. *)
Definition anchor_href (n : node) : option string :=
  match n with
  | Tag "a" attrs _ => attrs !! "href"
  | _ => None
  end.

(** [cols[i].get_text(strip=True) if len(cols) > i else None] *)
Definition cell (cols : list node) (i : nat) : pyval :=
  match cols !! i with
  | Some c => PStr (get_text "" c)
  | None => PNone
  end.

Definition feature_record (name description rating : pyval) : epc_record :=
  {[ "name" := name; "description" := description; "rating" := rating ]}.

(** The body of the loop over the rows of a features table. *)
Definition feature_row (features : list epc_record) (row : node)
  : list epc_record :=
  let cols := find_all ["td"; "th"] row in
  match cols with
  | [] => features
  | _ =>
      let name := cell cols 0 in
      let description := cell cols 1 in
      let rating := cell cols 2 in
      if truthy name || truthy description || truthy rating
      then features ++ [feature_record name description rating]
      else features
  end.

(** The body of the loop over the tables. *)
Definition feature_table (features : list epc_record) (table : node)
  : list epc_record :=
  let headers := (λ th, lower (get_text "" th)) <$> find_all ["th"] table in
  match headers with
  | [] => features
  | _ =>
      if negb (existsb (λ h, contains h "feature") headers) then features
      else foldl feature_row features (tail (find_all ["tr"] table))
  end.

Definition parse_features (soup : node) : list epc_record :=
  foldl feature_table [] (find_all ["table"] soup).

Definition change_record (name installation_cost yearly_saving
    potential_rating : pyval) : epc_record :=
  {[ "name" := name; "installationCost" := installation_cost;
     "yearlySaving" := yearly_saving; "potentialRating" := potential_rating ]}.

(** The body of the loop over the rows of a table of changes. *)
Definition change_row (changes : list epc_record) (row : node)
  : list epc_record :=
  let cols := find_all ["td"; "th"] row in
  match cols with
  | [] => changes
  | _ =>
      let name := cell cols 0 in
      let installation_cost := cell cols 1 in
      let yearly_saving := cell cols 2 in
      let potential_rating := cell cols 3 in
      if truthy name || truthy installation_cost || truthy yearly_saving
         || truthy potential_rating
      then changes ++ [change_record name installation_cost yearly_saving
                                     potential_rating]
      else changes
  end.

(** [header.find_all_next("table", limit=2)], from the elements that follow
    the header in document order. *)
Definition find_all_next_tables (next_elements : list node) : list node :=
  take 2 (filter (is_tag ["table"]) next_elements).

(** The body of the loop over the headers; [next_elements] is what follows
    the header in the document. *)
Definition change_header (changes : list epc_record) (header : node)
    (next_elements : list node) : list epc_record :=
  let header_text := lower (get_text " " header) in
  if negb (contains header_text "improvement")
     && negb (contains header_text "recommended measure")
  then changes
  else
    match find_all_next_tables next_elements with
    | [] => changes
    | table :: _ => foldl change_row changes (tail (find_all ["tr"] table))
    end.

(** The loop over [soup.find_all(["h2", "h3", "h4"])], walking the document
    in order so that each header comes with the elements after it. *)
Fixpoint changes_loop (elements : list node) (changes : list epc_record)
  : list epc_record :=
  match elements with
  | [] => changes
  | element :: next_elements =>
      let changes :=
        if is_tag ["h2"; "h3"; "h4"] element
        then change_header changes element next_elements
        else changes in
      changes_loop next_elements changes
  end.

Definition parse_changes (soup : node) : list epc_record :=
  changes_loop (descendants soup) [].

Definition DEFAULT_BASE : string :=
  "https://find-energy-certificate.service.gov.uk".

Definition token_prefix : string := "/energy-certificate/".

Section WithLibraries.
(** [urllib.parse.urljoin] *)
Variable urljoin : string → string → string.
(** [BeautifulSoup(html, "lxml")] *)
Variable lxml : string → node.

Definition build_absolute_url (href base_url : string) : string :=
  if startswith href "http://" || startswith href "https://" then href
  else if startswith href "/" then urljoin DEFAULT_BASE href
  else urljoin base_url href.

(** The body of the loop over [soup.find_all("a", href=True)]. *)
Definition listing_anchor (base_url : string) (certificate_urls : gset string)
    (href : string) : gset string :=
  if contains href token_prefix
  then certificate_urls ∪ {[ build_absolute_url href base_url ]}
  else certificate_urls.

(** The body of the loop over the tokens of the text;
    [token[token.find(token_prefix):]] is taken when the prefix occurs. *)
Definition listing_token (base_url : string) (certificate_urls : gset string)
    (token : string) : gset string :=
  match find token token_prefix with
  | Some i =>
      let href := slice_from i token in
      certificate_urls ∪ {[ build_absolute_url href base_url ]}
  | None => certificate_urls
  end.

Definition parse_listing_page (html base_url : string) : list string :=
  let soup := lxml html in
  let certificate_urls :=
    foldl (listing_anchor base_url) ∅ (omap anchor_href (descendants soup)) in
  let certificate_urls :=
    if decide (certificate_urls = ∅)
    then
      let text := get_text " " soup in
      foldl (listing_token base_url) certificate_urls (split text)
    else certificate_urls in
  sorted_set certificate_urls.

End WithLibraries.

End Parser.

(** ** extractors/utils_validation.py: numbers and years *)

Module Parsing.

(** The decimal digits and the word characters of the ASCII range. *)
Definition isdigit (a : ascii) : bool :=
  let n := nat_of_ascii a in (48 <=? n)%nat && (n <=? 57)%nat.

Definition isword (a : ascii) : bool :=
  let n := nat_of_ascii a in
  isdigit a
  || ((65 <=? n)%nat && (n <=? 90)%nat)
  || ((97 <=? n)%nat && (n <=? 122)%nat)
  || (n =? 95)%nat.

(** [value.replace(",", "")] *)
Fixpoint remove_commas (s : string) : string :=
  match s with
  | EmptyString => EmptyString
  | String a s' =>
      if Ascii.eqb a "," then remove_commas s'
      else String a (remove_commas s')
  end.

(** The digits at the front of [s], and what follows them. *)
Fixpoint span_digits (s : string) : string * string :=
  match s with
  | EmptyString => (EmptyString, EmptyString)
  | String a s' =>
      if isdigit a
      then let '(digits, rest) := span_digits s' in (String a digits, rest)
      else (EmptyString, s)
  end.

(** [[-+]?] at the front of [s]. *)
Definition span_sign (s : string) : string * string :=
  match s with
  | String a s' =>
      if Ascii.eqb a "-" || Ascii.eqb a "+"
      then (String a EmptyString, s')
      else (EmptyString, s)
  | EmptyString => (EmptyString, EmptyString)
  end.

(** What [RE_NUMBER], [[-+]?\d*\.?\d+], matches at the front of [s]: the
    sign, the digits, then a dot with digits after it when there is one. *)
Definition number_at (s : string) : option string :=
  let '(sign, s1) := span_sign s in
  let '(whole, s2) := span_digits s1 in
  let fraction :=
    match s2 with
    | String "." s3 =>
        let '(digits, _) := span_digits s3 in
        if decide (digits = "") then None else Some digits
    | _ => None
    end in
  match fraction with
  | Some digits => Some (sign +:+ whole +:+ "." +:+ digits)
  | None => if decide (whole = "") then None else Some (sign +:+ whole)
  end.

(** [RE_NUMBER.search(s)]: the match at the least position that has one. *)
Fixpoint number_search (s : string) : option string :=
  match number_at s with
  | Some m => Some m
  | None =>
      match s with
      | EmptyString => None
      | String _ s' => number_search s'
      end
  end.

(** What [RE_YEAR], [\b(19|20)\d{2}\b], matches at the front of [s], [prev]
    being the character before it. *)
Definition year_at (prev : option ascii) (s : string) : option string :=
  match s with
  | String a (String b (String c (String d rest))) =>
      let boundary_before :=
        match prev with Some p => negb (isword p) | None => true end in
      let boundary_after :=
        match rest with String n _ => negb (isword n) | EmptyString => true end in
      let century :=
        (Ascii.eqb a "1" && Ascii.eqb b "9")
        || (Ascii.eqb a "2" && Ascii.eqb b "0") in
      if boundary_before && century && isdigit c && isdigit d
         && boundary_after
      then Some (String a (String b (String c (String d EmptyString))))
      else None
  | _ => None
  end.

(** [RE_YEAR.search(s)] *)
Fixpoint year_search (prev : option ascii) (s : string) : option string :=
  match year_at prev s with
  | Some m => Some m
  | None =>
      match s with
      | EmptyString => None
      | String a s' => year_search (Some a) s'
      end
  end.

(** [int(s)] on a string of digits. *)
Definition digit_value (a : ascii) : Z := Z.of_nat (nat_of_ascii a - 48).

Fixpoint int_of_digits (acc : Z) (s : string) : option Z :=
  match s with
  | EmptyString => Some acc
  | String a s' =>
      if isdigit a then int_of_digits (10 * acc + digit_value a)%Z s'
      else None
  end.

(** [int(s)]; [None] stands for its [ValueError]. *)
Definition int (s : string) : option Z :=
  match s with
  | EmptyString => None
  | _ => int_of_digits 0 s
  end.

Definition parse_year (value : option string) : option Z :=
  match value with
  | None => None
  | Some value =>
      if decide (value = "") then None
      else match year_search None value with
           | None => None
           | Some m => int m
           end
  end.

Section WithFloat.
(** [float(s)]; [None] stands for its [ValueError], and the number it returns
    is kept as the interpreter gives it. *)
Variable float : string → option pyval.

Definition parse_number (value : option string) : option pyval :=
  match value with
  | None => None
  | Some value =>
      if decide (value = "") then None
      else match number_search (remove_commas value) with
           | None => None
           | Some m => float m
           end
  end.
End WithFloat.

End Parsing.

(** ** extractors/epc_parser.py: the fields of a certificate *)

Module Certificate.
Import Parser.

(** Every node below [parent], in document order, with its next sibling tag
    ([tag.find_next_sibling()]) and its parent ([tag.parent]). *)
Definition is_element (n : node) : bool :=
  match n with
  | Tag _ _ _ => true
  | Text _ => false
  end.

Definition next_tag (siblings : list node) : option node :=
  head (filter is_element siblings).

Fixpoint contexts (parent : node) : list (node * option node * node) :=
  match parent with
  | Text _ => []
  | Tag _ _ children =>
      (fix walk (cs : list node) : list (node * option node * node) :=
         match cs with
         | [] => []
         | c :: cs' => (c, next_tag cs', parent) :: contexts c ++ walk cs'
         end) children
  end.

(** The tags named [tag_name] below [soup], each with its sibling and
    parent. *)
Definition find_all_contexts (tag_name : string) (soup : node)
  : list (node * option node * node) :=
  filter (λ ctx, is_tag [tag_name] ctx.1.1 = true) (contexts soup).

(** The body of the inner loop of [_text_after_label] for one tag: the text
    it returns, if it returns. *)
Definition label_candidate (label : string)
    (ctx : node * option node * node) : option string :=
  let '(tag, sib, parent) := ctx in
  if contains (lower (get_text " " tag)) label
  then
    let sibling_text :=
      match sib with
      | Some sib =>
          if decide (get_text "" sib = "") then None
          else Some (get_text "" sib)
      | None => None
      end in
    match sibling_text with
    | Some text => Some text
    | None =>
        let parent_text := get_text " " parent in
        if decide (parent_text = "") then None else Some parent_text
    end
  else None.

Definition label_tags : list string :=
  [ "dt"; "th"; "strong"; "span"; "p"; "label" ].

Definition text_after_label (soup : node) (label : string) : option string :=
  let label := lower label in
  head (omap (λ tag_name,
                head (omap (label_candidate label)
                           (find_all_contexts tag_name soup)))
             label_tags).

Definition rating_selectors : list string :=
  [ ".epc-rating"; ".rating-band"; "span.epc-rating"; "p.epc-rating" ].

(** [path.split(sep)[-1]]: what follows the last of the occurrences of [sep]
    that a scan from the left finds; [skip] counts the characters of an
    occurrence still to pass, [piece] is the current last piece. *)
Fixpoint split_last_go (sep : string) (skip : nat) (s piece : string)
  : string :=
  match s with
  | EmptyString => piece
  | String _ s' =>
      match skip with
      | S k => split_last_go sep k s' piece
      | O =>
          if String.prefix sep s
          then split_last_go sep (String.length sep - 1) s'
                             (slice_from (String.length sep) s)
          else split_last_go sep 0 s' piece
      end
  end.

Definition split_last (sep s : string) : string := split_last_go sep 0 s s.

(** [s.strip("/")] *)
Fixpoint lstrip_slash (s : string) : string :=
  match s with
  | EmptyString => EmptyString
  | String a s' => if Ascii.eqb a "/" then lstrip_slash s' else s
  end.

Fixpoint rstrip_slash (s : string) : string :=
  match s with
  | EmptyString => EmptyString
  | String a s' =>
      match rstrip_slash s' with
      | EmptyString =>
          if Ascii.eqb a "/" then EmptyString else String a EmptyString
      | r => String a r
      end
  end.

Definition strip_slash (s : string) : string := rstrip_slash (lstrip_slash s).

(** A text or [None] as a value of a record. *)
Definition of_text (text : option string) : pyval :=
  match text with
  | Some s => PStr s
  | None => PNone
  end.

(** [a or b] on two optional texts. *)
Definition or_else (a b : option string) : option string :=
  match a with
  | Some s => if decide (s = "") then b else a
  | None => b
  end.

Section WithLibraries.
(** [BeautifulSoup(html, "lxml")] *)
Variable lxml : string → node.
(** [soup.select_one(selector)] *)
Variable select_one : node → string → option node.
(** [urlparse(url).path]; [None] stands for the exception it may raise. *)
Variable url_path : string → option string.
(** [float(s)] *)
Variable float : string → option pyval.

Definition first_text (soup : node) (selectors : list string)
  : option string :=
  head (omap (λ sel,
                match select_one soup sel with
                | Some el =>
                    if decide (get_text "" el = "") then None
                    else Some (get_text "" el)
                | None => None
                end)
             selectors).

(** The first lines of [parse_certificate_page]: the [url], and the [id]
    taken from the path of the URL. *)
Definition id_from_url (url : string) : epc_record :=
  let record : epc_record := {[ "url" := PStr url ]} in
  match url_path url with
  | Some path =>
      if contains path token_prefix
      then <[ "id" := PStr (strip_slash (split_last token_prefix path)) ]>
             record
      else record
  | None => record
  end.

(** The fallback: the first token of the text after the label. *)
Definition id_from_label (soup : node) (record : epc_record)
  : result epc_record :=
  if truthy (get record "id") then Ok record
  else
    match text_after_label soup "Certificate number" with
    | Some id_text =>
        if decide (id_text = "") then Ok record
        else match head (split id_text) with
             | Some token => Ok (<[ "id" := PStr token ]> record)
             | None => Raise IndexError
             end
    | None => Ok record
    end.

Definition parse_certificate_page (html url : string) : result epc_record :=
  let soup := lxml html in
  let text label := of_text (text_after_label soup label) in
  let number label :=
    default PNone (Parsing.parse_number float (text_after_label soup label)) in
  let year label :=
    from_option PInt PNone (Parsing.parse_year (text_after_label soup label)) in
  record ← id_from_label soup (id_from_url url);
  let record := <[ "postCode" := text "Postcode" ]> record in
  let record := <[ "locality" := text "Town" ]> record in
  let record := <[ "address" := text "Address" ]> record in
  let record :=
    <[ "rating" := of_text (or_else (first_text soup rating_selectors)
                                    (text_after_label soup "Rating")) ]>
      record in
  let record := <[ "propertyType" := text "Property type" ]> record in
  let record := <[ "floorArea" := text "Total floor area" ]> record in
  let record := <[ "currentScore" := text "Current rating" ]> record in
  let record := <[ "potentialScore" := text "Potential rating" ]> record in
  let record := <[ "primaryUsage" := number "Primary energy use" ]> record in
  let record := <[ "averageBill" := number "Current costs" ]> record in
  let record := <[ "potentialSaving" := number "Potential savings" ]> record in
  let record := <[ "averageCostYear" := year "Based on" ]> record in
  let record := <[ "co2Produces" := number "Current emissions" ]> record in
  let record := <[ "co2Potential" := number "Potential emissions" ]> record in
  let record := <[ "features" := PList (PDict <$> parse_features soup) ]>
                  record in
  let record := <[ "changes" := PList (PDict <$> parse_changes soup) ]>
                  record in
  let record := <[ "assessorName" := text "Assessor's name" ]> record in
  let record := <[ "assessorPhone" := text "Assessor's phone" ]> record in
  let record := <[ "assessorEmail" := text "Assessor's email" ]> record in
  let record :=
    <[ "accreditationScheme" := text "Accreditation scheme" ]> record in
  let record :=
    <[ "accreditationAssessorID" := text "Accreditation number" ]> record in
  let record :=
    <[ "accreditationPhone" := text "Accreditation scheme phone" ]> record in
  let record :=
    <[ "accreditationEmail" := text "Accreditation scheme email" ]> record in
  let record := <[ "assessmentDate" := text "Date of assessment" ]> record in
  let record := <[ "certificateDate" := text "Date of certificate" ]> record in
  let record := <[ "assessmentType" := text "Type of assessment" ]> record in
  let record := <[ "validtillDate" := text "Expiry date" ]> record in
  Ok record.

End WithLibraries.

End Certificate.

(** ** main.py: the crawl and the run *)

Module Pipeline.

Section WithCollaborators.
Variable lxml : string → Parser.node.
Variable select_one : Parser.node → string → option Parser.node.
Variable url_path : string → option string.
Variable float : string → option pyval.
Variable urljoin : string → string → string.
Variable dateutil_parse : string → option Validation.datetime.
Variable utcnow : Z.
Variable repr : pyval → string.
(** [parser.fetch_listing_page] and [parser.fetch_certificate]: the text of
    the answer to the [n]-th request of the run, [None] for a status other
    than 200 and for a failed request. *)
Variable fetch : nat → string → option string.

(** The body of the [try] of [crawl_full]. *)
Definition crawl_record (cert_html cert_url : string) : result epc_record :=
  record ← Certificate.parse_certificate_page lxml select_one url_path float
              cert_html cert_url;
  let record := <[ "url" := PStr cert_url ]> record in
  record ← Validation.normalize_record dateutil_parse utcnow record;
  _ ← Validation.validate_epc_record repr record;
  Ok record.

(** The body of the loop over the certificate URLs; the state is the number
    of requests made and [all_records].  An exception of the [try] skips the
    certificate. *)
Definition crawl_certificate (st : nat * list epc_record) (cert_url : string)
  : nat * list epc_record :=
  let '(n, all_records) := st in
  match fetch n cert_url with
  | None => (S n, all_records)
  | Some cert_html =>
      match crawl_record cert_html cert_url with
      | Ok record => (S n, all_records ++ [record])
      | Raise _ => (S n, all_records)
      end
  end.

(** The body of the loop over the listing URLs. *)
Definition crawl_listing (st : nat * list epc_record) (url : string)
  : nat * list epc_record :=
  let '(n, all_records) := st in
  match fetch n url with
  | None => (S n, all_records)
  | Some listing_html =>
      let certificate_urls :=
        Parser.parse_listing_page urljoin lxml listing_html url in
      foldl crawl_certificate (S n, all_records) certificate_urls
  end.

Definition crawl_full (listing_urls : list string) : list epc_record :=
  (foldl crawl_listing (0%nat, []) listing_urls).2.

End WithCollaborators.

Section Run.
Variable repr : pyval → string.

(** [run_from_config] from [records = deduplicate_records(records)] to the
    records handed to [export_all], with the file system it leaves.  The
    outer [None] is an [id] outside [Set[str]], as in [detect_changes]. *)
Definition run_records (monitoring_mode : bool) (fs : Tracker.filesystem)
    (state_file : string) (records : list epc_record)
  : option (result (list epc_record * Tracker.filesystem)) :=
  records ← Main.deduplicate_records records;
  if monitoring_mode
  then
    match Tracker.load_state repr fs state_file with
    | Raise e => Some (Raise e)
    | Ok previous_ids =>
        '(new_records, removed_records, updated_id_set) ←
          Tracker.detect_changes records previous_ids;
        let output_records := new_records ++ removed_records in
        Some (Ok (output_records,
                  Tracker.save_state fs state_file (elements updated_id_set)))
    end
  else Some (Ok (records, fs)).

End Run.

End Pipeline.

(** ** outputs/exporters.py: the rows of the CSV file *)

Module Exporters.

(** [sorted({key for rec in records for key in rec.keys()})] *)
Definition fieldnames (records : list epc_record) : list string :=
  sorted_set (⋃ (dom <$> records)).

(** [csv.DictWriter._dict_to_list], with the [extrasaction="raise"] and the
    [restval=""] that [export_csv] leaves at their defaults: the values of
    the row in the order of the field names.  [None] stands for the
    [ValueError] of a row with a key that is no field name. *)
Definition dict_to_list (fieldnames : list string) (rowdict : epc_record)
  : option (list pyval) :=
  let wrong_fields : gset string := dom rowdict ∖ list_to_set fieldnames in
  if decide (wrong_fields = ∅)
  then Some ((λ key, default (PStr "") (rowdict !! key)) <$> fieldnames)
  else None.

(** The rows that [export_csv] hands to the CSV writer, the header first: no
    row at all for an empty list of records. *)
Definition export_csv (records : list epc_record)
  : option (list (list pyval)) :=
  match records with
  | [] => Some []
  | _ =>
      let fieldnames := fieldnames records in
      rows ← mapM (dict_to_list fieldnames) records;
      Some ((PStr <$> fieldnames) :: rows)
  end.

End Exporters.

(** ** The statements of the specification *)

Module Spec.

(** The [id] a record has: a [str] that is not empty. *)
Definition id_of (rec : epc_record) : option string :=
  match rec !! "id" with
  | Some (PStr s) => if decide (s = "") then None else Some s
  | _ => None
  end.

(** The typing of the [id] field, [Optional[str]]: a truthy [id] is a
    [str]. *)
Definition id_typed (rec : epc_record) : Prop :=
  truthy (get rec "id") = true → ∃ s, rec !! "id" = Some (PStr s).

(** The IDs of the current crawl. *)
Definition current_ids (records : list epc_record) : gset string :=
  list_to_set (omap id_of records).

(** A record is new when it has an [id] that was not seen before. *)
Definition is_new (previous_ids : gset string) (rec : epc_record) : bool :=
  match id_of rec with
  | Some s => bool_decide (s ∉ previous_ids)
  | None => false
  end.

(** [l] lists the elements of [xs] once each, in increasing order. *)
Definition sorted_listing (xs : list string) (l : list string) : Prop :=
  StronglySorted String.le l ∧ NoDup l ∧ ∀ x, x ∈ l ↔ x ∈ xs.

(** A string of white space only (the empty string included). *)
Fixpoint all_space (s : string) : bool :=
  match s with
  | EmptyString => true
  | String a s' => isspace a && all_space s'
  end.

(** The loop of [normalize_record] over the defaults. *)
Definition fill_defaults (record : epc_record) (l : list (string * pyval))
  : epc_record :=
  foldl (λ record '(key, default), setdefault record key default) record l.

(** The loop of [validate_epc_record] over the required fields. *)
Definition required_errors (record : epc_record) : list string :=
  foldl (λ errors field,
           if truthy (get record field) then errors
           else errors ++ [Validation.missing_error field])
        [] Validation.required_fields.

Section WithRuntime.
Variable dateutil_parse : string → option Validation.datetime.
Variable utcnow : Z.

(** What [normalize_record] does after the loop over the defaults. *)
Definition derive_expired (record : epc_record) : result epc_record :=
  if is_none (get record "expired")
  then
    e ← Validation.is_expired dateutil_parse utcnow
           (get record "validtillDate") None;
    Ok (<[ "expired" := Validation.of_optional_bool e ]> record)
  else Ok record.
End WithRuntime.

(** The records, among the first [n], that have no [id]. *)
Definition without_id (records : list epc_record) (n : nat)
  : list epc_record :=
  filter (λ rec, id_of rec = None) (take n records).

(** The [id] and the record with which the record at position [i] leaves the
    loop of [deduplicate_records]: its own, or the synthetic
    ["anonymous-N"], [N] counting the records without an [id] up to and
    including this one. *)
Definition labelled_at (records : list epc_record) (i : nat)
    (rec : epc_record) : string * epc_record :=
  match id_of rec with
  | Some s => (s, rec)
  | None =>
      let rec_id := Main.anonymous (length (without_id records (S i))) in
      (rec_id, <[ "id" := PStr rec_id ]> rec)
  end.

Definition labelled (records : list epc_record)
  : list (string * epc_record) :=
  imap (labelled_at records) records.

(** The last record seen under the [id] [k]. *)
Definition last_seen (l : list (string * epc_record)) (k : string)
  : option epc_record :=
  snd <$> last (filter (λ p, p.1 = k) l).

(** The [href]s of the anchors that point to a certificate, in document
    order. *)
Definition candidate_hrefs (soup : Parser.node) : list string :=
  filter (λ href, contains href Parser.token_prefix)
         (omap Parser.anchor_href (Parser.descendants soup)).

(** The [href]s rebuilt from the tokens of the text: a token that contains
    the prefix, from the prefix on. *)
Definition fallback_hrefs (soup : Parser.node) : list string :=
  omap (λ token,
          (λ i, slice_from i token) <$> find token Parser.token_prefix)
       (split (Parser.get_text " " soup)).

(** The [href]s a listing page yields: those of the anchors, and those of
    the text when no anchor matches. *)
Definition listing_hrefs (soup : Parser.node) : list string :=
  match candidate_hrefs soup with
  | [] => fallback_hrefs soup
  | hrefs => hrefs
  end.
















End Spec.

(** ** Sample inputs *)

Module Samples.

(** Python's [repr] is not needed on the samples, whose values are strings. *)
Definition no_repr (v : pyval) : string := "".

Definition record_a : epc_record := {[ "id" := PStr "a" ]}.
Definition record_b : epc_record := {[ "id" := PStr "b" ]}.
Definition ids_ab : gset string := {[ "a"; "b" ]}.

Definition record_abc_1 : epc_record :=
  {[ "id" := PStr "abc"; "n" := PInt 1 ]}.
Definition record_abc_2 : epc_record :=
  {[ "id" := PStr "abc"; "n" := PInt 2 ]}.
Definition crawl : list epc_record := [ record_abc_1; ∅; record_abc_2 ].

Definition rated (rating : string) : epc_record :=
  {[ "rating" := PStr rating ]}.

(** A row whose only cell holds white space. *)
Definition blank_row : Parser.node :=
  Parser.Tag "tr" ∅ [ Parser.Tag "td" ∅ [ Parser.Text " " ] ].

Definition wall_row : Parser.node :=
  Parser.Tag "tr" ∅
    [ Parser.Tag "td" ∅ [ Parser.Text "Wall" ];
      Parser.Tag "td" ∅ [ Parser.Text "Cavity wall" ];
      Parser.Tag "td" ∅ [ Parser.Text "Good" ] ].

Definition features_table : Parser.node :=
  Parser.Tag "table" ∅
    [ Parser.Tag "tr" ∅ [ Parser.Tag "th" ∅ [ Parser.Text "Feature" ] ];
      blank_row; wall_row ].

Definition features_page : Parser.node :=
  Parser.Tag "[document]" ∅ [ features_table ].

Definition loft_row : Parser.node :=
  Parser.Tag "tr" ∅
    [ Parser.Tag "td" ∅ [ Parser.Text "Loft insulation" ];
      Parser.Tag "td" ∅ [ Parser.Text "100 - 350" ];
      Parser.Tag "td" ∅ [ Parser.Text "45" ];
      Parser.Tag "td" ∅ [ Parser.Text "72 C" ] ].

Definition changes_table : Parser.node :=
  Parser.Tag "table" ∅
    [ Parser.Tag "tr" ∅ [ Parser.Tag "th" ∅ [ Parser.Text "Step" ] ];
      blank_row; loft_row ].

Definition changes_page : Parser.node :=
  Parser.Tag "[document]" ∅
    [ Parser.Tag "h2" ∅ [ Parser.Text "Suggested improvements" ];
      changes_table ].

Definition listing_page : Parser.node :=
  Parser.Tag "[document]" ∅
    [ Parser.Tag "a"
        {[ "href" := "https://other.example/energy-certificate/9999" ]}
        [ Parser.Text "9999" ];
      Parser.Tag "p" ∅ [ Parser.Text "or" ];
      Parser.Tag "a" {[ "href" := "/energy-certificate/1234-5678" ]}
        [ Parser.Text "1234-5678" ];
      Parser.Tag "a" {[ "href" := "/help" ]} [ Parser.Text "Help" ] ].

End Samples.

(** ** Further statements and sample inputs *)

Module SpecExtra.

(** The keys of a dictionary filled in this order: each key at the place of
    its first occurrence. *)
Definition first_occurrences (keys : list string) : list string :=
  reverse (remove_dups (reverse keys)).


(** The stripped strings below a node, which [get_text] joins. *)
Definition pieces (n : Parser.node) : list string :=
  omap Parser.stripped_string (Parser.descendants n).

(** A text that starts with a character that is not white space. *)
Definition starts_black (s : string) : Prop :=
  ∃ a r, s = String a r ∧ isspace a = false.


(** A rating that is [None] or a text with a token. *)
Definition rating_shape (record : epc_record) : Prop :=
  get record "rating" = PNone
  ∨ ∃ s, record !! "rating" = Some (PStr s) ∧ starts_black s.

(** An [id] that is absent or a [str]. *)
Definition id_shape (record : epc_record) : Prop :=
  record !! "id" = None ∨ ∃ s, record !! "id" = Some (PStr s).

(** A record that [crawl_full] built for the certificate at [cert_url]:
    it carries that URL, its [id] is a [str] or [None], it has every key of
    the schema, and [validate_epc_record] returned on it. *)
Definition crawled (repr : pyval → string) (cert_url : string)
    (record : epc_record) : Prop :=
  record !! "url" = Some (PStr cert_url)
  ∧ Spec.id_typed record
  ∧ (∀ key, key ∈ Validation.defaults.*1 → is_Some (record !! key))
  ∧ ∃ verdict, Validation.validate_epc_record repr record = Ok verdict.

(** A certificate URL that a listing page of the crawl links to. *)
Definition listed (urljoin : string → string → string)
    (lxml : string → Parser.node) (fetch : nat → string → option string)
    (listing_urls : list string) (cert_url : string) : Prop :=
  ∃ n listing_url listing_html,
    listing_url ∈ listing_urls
    ∧ fetch n listing_url = Some listing_html
    ∧ cert_url ∈ Parser.parse_listing_page urljoin lxml listing_html
                    listing_url.




End SpecExtra.

Module SamplesExtra.

(** A page of a certificate: its number and the day it expires. *)
Definition certificate_page : Parser.node :=
  Parser.Tag "[document]" ∅
    [ Parser.Tag "dl" ∅
        [ Parser.Tag "dt" ∅ [ Parser.Text "Certificate number" ];
          Parser.Tag "dd" ∅ [ Parser.Text " 1234-5678 (valid) " ];
          Parser.Tag "dt" ∅ [ Parser.Text "Expiry date" ];
          Parser.Tag "dd" ∅ [ Parser.Text "1 January 2030" ] ] ].

(** Collaborators for the samples: a parser that reads every text as
    [certificate_page], a selector engine that knows one class, a URL parser
    that finds no path or one path, a [float] that keeps the literal, and a
    date parser that reads no date or one date without a time zone. *)
Definition one_page (html : string) : Parser.node := certificate_page.

Definition band_selector (soup : Parser.node) (sel : string)
  : option Parser.node :=
  if String.eqb sel ".rating-band"
  then Some (Parser.Tag "span" ∅ [ Parser.Text "C" ])
  else None.

Definition no_path (url : string) : option string := None.

Definition one_path (url : string) : option string :=
  Some "/energy-certificate/1234-5678/".

Definition literal (s : string) : option pyval := Some (PStr s).

Definition second_of (base href : string) : string := href.

Definition no_date (s : string) : option Validation.datetime := None.

Definition one_date (s : string) : option Validation.datetime :=
  Some (Validation.Datetime 100 false).

Definition no_fetch (n : nat) (url : string) : option string := None.

(** Records before and after [normalize_record]. *)
Definition dated (valid_till : string) : epc_record :=
  {[ "validtillDate" := PStr valid_till ]}.

Definition normalized (record : epc_record) (expired : pyval) : epc_record :=
  <[ "expired" := expired ]> (Spec.fill_defaults record Validation.defaults).

End SamplesExtra.

(** Closes an equation between closed terms by evaluating both sides. *)
Ltac by_evaluation :=
  repeat split;
  lazymatch goal with
  | |- ?x = _ => vm_cast_no_check (eq_refl x)
  end.

(** ** Sorting *)

Section Sorting.

Lemma sorted_perm (l : list string) : sorted l ≡ₚ l.
Proof. apply merge_sort_Permutation. Qed.

Lemma sorted_strongly (l : list string) : StronglySorted String.le (sorted l).
Proof. apply (StronglySorted_merge_sort String.le). Qed.

Lemma sorted_set_listing (s : gset string) :
  Spec.sorted_listing (elements s) (sorted_set s).
Proof.
  unfold sorted_set. split_and!.
  - apply sorted_strongly.
  - rewrite sorted_perm. apply NoDup_elements.
  - intros x. by rewrite sorted_perm.
Qed.

Lemma sorted_set_listing_of (s : gset string) (xs : list string) :
  (∀ x, x ∈ s ↔ x ∈ xs) → Spec.sorted_listing xs (sorted_set s).
Proof.
  intros Hxs. destruct (sorted_set_listing s) as (Hs & Hn & He).
  split_and!; [done..|].
  intros x. by rewrite He, elem_of_elements.
Qed.

Lemma sorted_set_elem (s : gset string) (x : string) :
  x ∈ sorted_set s ↔ x ∈ s.
Proof. unfold sorted_set. by rewrite sorted_perm, elem_of_elements. Qed.

Lemma list_to_set_sorted_set (s : gset string) :
  list_to_set (sorted_set s) = s.
Proof. apply set_eq. intros x. by rewrite elem_of_list_to_set, sorted_set_elem. Qed.

(** A sorted listing is determined by what it lists. *)
Lemma sorted_listing_unique (xs l1 l2 : list string) :
  Spec.sorted_listing xs l1 → Spec.sorted_listing xs l2 → l1 = l2.
Proof.
  intros (Hs1 & Hn1 & He1) (Hs2 & Hn2 & He2).
  apply (StronglySorted_unique String.le); [done..|].
  apply NoDup_Permutation; [done..|].
  intros x. by rewrite He1, He2.
Qed.

End Sorting.

(** ** monitoring/tracker.py *)

Section TrackerProofs.
Import Tracker Spec.

Lemma view_id_typed (rec : epc_record) :
  id_typed rec →
  view_id rec = match id_of rec with Some s => StrId s | None => NoId end.
Proof.
  unfold id_typed, view_id, id_of, get. intros Hty.
  destruct (rec !! "id") as [v|] eqn:Hid; simpl in *; [|done].
  destruct (truthy v) eqn:Htr.
  - destruct Hty as [s Hs]; [done|]. simplify_eq. simpl in Htr.
    destruct (decide (s = "")) as [->|]; [done|done].
  - destruct v; try done. simpl in Htr.
    destruct (decide (s = "")) as [->|Hne]; [done|].
    apply String.eqb_neq in Hne. by rewrite Hne in Htr.
Qed.

Lemma elem_of_current_ids (records : list epc_record) (k : string) :
  k ∈ current_ids records ↔
  ∃ rec, rec ∈ records ∧ rec !! "id" = Some (PStr k) ∧ k ≠ "".
Proof.
  unfold current_ids. rewrite elem_of_list_to_set, list_elem_of_omap.
  split; intros (rec & Hin & Hid); exists rec; split; try done.
  - unfold id_of in Hid. destruct (rec !! "id") as [[]|]; try done.
    by case_decide; simplify_eq.
  - unfold id_of. destruct Hid as [-> ?]. by rewrite decide_False.
Qed.

Lemma current_ids_cons (rec : epc_record) (records : list epc_record) :
  current_ids (rec :: records) =
  match id_of rec with
  | Some s => {[ s ]} ∪ current_ids records
  | None => current_ids records
  end.
Proof. unfold current_ids. simpl. by destruct (id_of rec). Qed.

(** The loop of [detect_changes], from any state. *)
Lemma detect_loop (previous_ids : gset string) (records : list epc_record) :
  Forall id_typed records →
  ∀ current new_records,
    foldl (detect_step previous_ids) (Some (current, new_records)) records =
    Some (current ∪ current_ids records,
          new_records ++ filter (is_new previous_ids) records).
Proof.
  induction 1 as [|rec records Hty _ IH]; intros current new_records.
  - simpl. f_equal. f_equal; [set_solver|by rewrite app_nil_r].
  - simpl. rewrite (view_id_typed _ Hty), current_ids_cons.
    assert (Hnew : is_new previous_ids rec =
                   match id_of rec with
                   | Some s => bool_decide (s ∉ previous_ids)
                   | None => false
                   end) by done.
    destruct (id_of rec) as [s|].
    + destruct (decide (s ∈ previous_ids)) as [Hin|Hout].
      * rewrite IH, filter_cons_False.
        -- f_equal. f_equal. set_solver.
        -- rewrite Hnew. by intros ?%bool_decide_unpack.
      * rewrite IH, filter_cons_True.
        -- f_equal. f_equal; [set_solver|]. by rewrite <- app_assoc.
        -- rewrite Hnew. by apply bool_decide_pack.
    + rewrite IH, filter_cons_False; [reflexivity|]. rewrite Hnew. simpl. tauto.
Qed.

(** C1.  For records whose [id] is a [str] or absent, [detect_changes]
    returns: the current records, in order, whose [id] is truthy and not
    among the previous IDs; one stub [{id, removed: true}] per previous ID
    that is not a current ID, in increasing order of ID; the union of the
    previous and the current IDs, where records without an [id] contribute to
    neither the new records nor the current IDs. *)
Theorem detect_changes_spec (current_records : list epc_record)
    (previous_ids : gset string) :
  Forall id_typed current_records →
  ∃ removed_ids,
    detect_changes current_records previous_ids =
      Some (filter (is_new previous_ids) current_records,
            stub <$> removed_ids,
            previous_ids ∪ current_ids current_records)
    ∧ StronglySorted String.le removed_ids
    ∧ NoDup removed_ids
    ∧ (∀ k, k ∈ removed_ids ↔
            k ∈ previous_ids ∧ k ∉ current_ids current_records)
    ∧ (∀ k, k ∈ current_ids current_records ↔
            ∃ rec, rec ∈ current_records
                   ∧ rec !! "id" = Some (PStr k) ∧ k ≠ "").
Proof.
  intros Hty.
  exists (sorted_set (previous_ids ∖ current_ids current_records)).
  unfold detect_changes. rewrite (detect_loop _ _ Hty). simpl.
  rewrite (left_id_L ∅ (∪)).
  destruct (sorted_set_listing (previous_ids ∖ current_ids current_records))
    as (Hs & Hn & He).
  split_and!; try done.
  - intros k. rewrite sorted_set_elem. set_solver.
  - apply elem_of_current_ids.
Qed.

Lemma detect_changes_spec_witness :
  let records : list epc_record := [ {[ "id" := PStr "a" ]} ] in
  let previous : gset string := {[ "a"; "b" ]} in
  Forall id_typed records ∧
  ∃ removed_ids,
    detect_changes records previous =
      Some (filter (is_new previous) records, stub <$> removed_ids,
            previous ∪ current_ids records)
    ∧ StronglySorted String.le removed_ids
    ∧ NoDup removed_ids
    ∧ (∀ k, k ∈ removed_ids ↔ k ∈ previous ∧ k ∉ current_ids records)
    ∧ (∀ k, k ∈ current_ids records ↔
            ∃ rec, rec ∈ records ∧ rec !! "id" = Some (PStr k) ∧ k ≠ "").
Proof.
  intros records previous.
  assert (Forall id_typed records) as Hty.
  { repeat constructor. intros _. by exists "a". }
  split; [exact Hty|].
  exact (detect_changes_spec records previous Hty).
Defined.

(** The two runs of the specification. *)
Example detect_changes_removed :
  detect_changes [ {[ "id" := PStr "a" ]} ] {[ "a"; "b" ]} =
  Some ([], [ stub "b" ], {[ "a"; "b" ]}).
Proof. by_evaluation. Qed.

Example detect_changes_fresh :
  detect_changes [ {[ "id" := PStr "a" ]}; {[ "id" := PStr "b" ]} ] ∅ =
  Some ([ {[ "id" := PStr "a" ]}; {[ "id" := PStr "b" ]} ], [],
        {[ "a"; "b" ]}).
Proof. by_evaluation. Qed.

Section StateFile.
Variable repr : pyval → string.

Lemma str_set_strings (l : list string) :
  str_set repr (PStr <$> l) = list_to_set l.
Proof.
  unfold str_set. f_equal.
  induction l as [|x l IH]; [done|]. rewrite !fmap_cons. by f_equal.
Qed.

(** What [save_state] leaves at [path]: the object [{"ids": [...]}] with the
    IDs once each, in increasing order. *)
Lemma save_state_file (fs : filesystem) (path : string) (ids : list string) :
  ∃ l, save_state fs path ids !! path =
         Some (Json (PDict {[ "ids" := PList (PStr <$> l) ]}))
       ∧ sorted_listing ids l.
Proof.
  exists (sorted_set (list_to_set ids)). split.
  - unfold save_state. by rewrite lookup_insert_eq.
  - destruct (sorted_set_listing (list_to_set ids)) as (Hs & Hn & He).
    split_and!; [done..|].
    intros x. rewrite He. set_solver.
Qed.

(** C2.  Whatever the order (and the repetitions) in which the IDs of a set
    are handed to [save_state], [load_state] on the written file returns
    exactly that set. *)
Theorem save_load_roundtrip (fs : filesystem) (path : string)
    (id_set : gset string) (ids : list string) :
  list_to_set ids = id_set →
  load_state repr (save_state fs path ids) path = Ok id_set.
Proof.
  intros <-. unfold load_state, save_state.
  rewrite lookup_insert_eq, lookup_singleton_eq. simpl.
  by rewrite str_set_strings, list_to_set_sorted_set.
Qed.

(** The outcomes of [load_state] that are a set: no file, a text that is not
    JSON, a list, an object whose [ids] can be iterated, an object without
    [ids], any other document. *)
Lemma load_state_returns (fs : filesystem) (path : string) :
  fs !! path ≠ Some Unreadable →
  (∀ d ids, fs !! path = Some (Json (PDict d)) → d !! "ids" = Some ids →
            ∃ xs, iterate ids = Ok xs) →
  ∃ id_set, load_state repr fs path = Ok id_set.
Proof.
  intros Hread Hids. unfold load_state.
  destruct (fs !! path) as [[data| |]|] eqn:Hfile; try by eauto.
  destruct data as [| | | |xs|d]; try by eauto.
  destruct (d !! "ids") as [ids|] eqn:Hd; [|by eauto].
  destruct (Hids d ids eq_refl Hd) as [xs ->]. simpl. eauto.
Qed.

(** C9.  A state file that holds the object [{"ids": 5}] makes [load_state]
    raise: the number is iterated, which is a [TypeError] that nothing
    catches. *)
Theorem load_state_ids_not_iterable (path : string) :
  load_state repr {[ path := Json (PDict {[ "ids" := PInt 5 ]}) ]} path =
  Raise TypeError.
Proof.
  unfold load_state. by rewrite lookup_singleton_eq, lookup_singleton_eq.
Qed.

(** A state file that exists and cannot be opened makes it raise as well. *)
Lemma load_state_unreadable (path : string) :
  load_state repr {[ path := Unreadable ]} path = Raise OSError.
Proof. unfold load_state. by rewrite lookup_singleton_eq. Qed.

End StateFile.

Lemma save_load_roundtrip_witness :
  list_to_set [ "b"; "a"; "b" ] = ({[ "a"; "b" ]} : gset string) ∧
  load_state (λ _, "") (save_state ∅ "state.json" [ "b"; "a"; "b" ])
             "state.json" = Ok {[ "a"; "b" ]}.
Proof.
  assert (list_to_set [ "b"; "a"; "b" ] = ({[ "a"; "b" ]} : gset string))
    as Hset by by_evaluation.
  split; [exact Hset|].
  exact (save_load_roundtrip (λ _, "") ∅ "state.json" _ _ Hset).
Defined.

End TrackerProofs.

(** ** Strings *)

Section Strings.
Import Spec.

Lemma isspace_upper_char (a : ascii) : isspace (upper_char a) = isspace a.
Proof. by destruct a as [[] [] [] [] [] [] [] []]. Qed.

Lemma split_all_space (s : string) : all_space s = true → split s = [].
Proof.
  induction s as [|a s IH]; [done|]. simpl.
  intros [Ha Hs]%andb_true_iff. rewrite Ha. auto.
Qed.

Lemma lstrip_all_space (s : string) : all_space s = true → lstrip s = "".
Proof.
  induction s as [|a s IH]; [done|]. simpl.
  intros [Ha Hs]%andb_true_iff. rewrite Ha. auto.
Qed.

Lemma split_nil_all_space (s : string) : split s = [] → all_space s = true.
Proof.
  induction s as [|a s IH]; [done|]. simpl.
  destruct (isspace a); simpl; [done|].
  destruct s as [|b s]; [done|].
  destruct (isspace b); [done|].
  by destruct (split (String b s)).
Qed.

Lemma split_lstrip (s : string) : split (lstrip s) = split s.
Proof.
  induction s as [|a s IH]; [done|]. simpl.
  destruct (isspace a) eqn:Ha; [done|]. simpl. by rewrite Ha.
Qed.

Lemma rstrip_nil_all_space (s : string) : rstrip s = "" → all_space s = true.
Proof.
  induction s as [|a s IH]; [done|]. simpl.
  destruct (rstrip s); [|done].
  destruct (isspace a); [auto|done].
Qed.

(** [rstrip] keeps the first character of what it does not erase. *)
Lemma rstrip_cons (a : ascii) (s : string) :
  rstrip (String a s) = "" ∨ ∃ r, rstrip (String a s) = String a r.
Proof.
  simpl. destruct (rstrip s); [|by eauto].
  destruct (isspace a); eauto.
Qed.

Lemma split_rstrip (s : string) : split (rstrip s) = split s.
Proof.
  induction s as [|a s IH]; [done|].
  change (rstrip (String a s)) with
    (match rstrip s with
     | EmptyString => if isspace a then EmptyString else String a EmptyString
     | r => String a r
     end).
  destruct (rstrip s) as [|c r] eqn:Hr.
  - pose proof (rstrip_nil_all_space _ Hr) as Hsp.
    pose proof (split_all_space _ Hsp) as Hnil.
    simpl. destruct (isspace a) eqn:Ha; simpl; [by rewrite Hnil|].
    rewrite Ha. destruct s as [|b s]; [done|].
    simpl in Hsp. apply andb_true_iff in Hsp as [-> _]. by rewrite Hnil.
  - destruct s as [|b s]; [done|].
    destruct (rstrip_cons b s) as [Hnil|[r' Hr']]; [congruence|].
    assert (c = b) as -> by congruence.
    change (split (String a (String b r))) with
      (if isspace a then split (String b r)
       else if isspace b then String a EmptyString :: split (String b r)
            else push_char a (split (String b r))).
    change (split (String a (String b s))) with
      (if isspace a then split (String b s)
       else if isspace b then String a EmptyString :: split (String b s)
            else push_char a (split (String b s))).
    by rewrite IH.
Qed.

Lemma split_strip (s : string) : split (strip s) = split s.
Proof. unfold strip. by rewrite split_rstrip, split_lstrip. Qed.

Lemma push_char_upper (a : ascii) (ts : list string) :
  push_char (upper_char a) (upper <$> ts) = upper <$> push_char a ts.
Proof. by destruct ts. Qed.

Lemma split_upper (s : string) : split (upper s) = upper <$> split s.
Proof.
  induction s as [|a s IH]; [done|].
  destruct s as [|b s].
  - simpl. rewrite isspace_upper_char. by destruct (isspace a).
  - change (upper (String a (String b s))) with
      (String (upper_char a) (upper (String b s))).
    change (upper (String b s)) with
      (String (upper_char b) (upper s)) in *.
    change (split (String (upper_char a) (String (upper_char b) (upper s))))
      with
      (if isspace (upper_char a)
       then split (String (upper_char b) (upper s))
       else if isspace (upper_char b)
            then String (upper_char a) EmptyString
                   :: split (String (upper_char b) (upper s))
            else push_char (upper_char a)
                   (split (String (upper_char b) (upper s)))).
    change (split (String a (String b s))) with
      (if isspace a then split (String b s)
       else if isspace b then String a EmptyString :: split (String b s)
            else push_char a (split (String b s))).
    rewrite !isspace_upper_char, IH.
    destruct (isspace a); [done|].
    destruct (isspace b); [done|]. apply push_char_upper.
Qed.



(** The last token of the rating as [validate_epc_record] computes it. *)
Lemma last_token_normalised (s : string) :
  last (split (upper (strip s))) = upper <$> last (split s).
Proof. by rewrite split_upper, split_strip, fmap_last. Qed.

End Strings.

(** ** extractors/utils_validation.py *)

Section ValidationProofs.
Import Validation Spec.

Variable dateutil_parse : string → option datetime.
Variable utcnow : Z.
Variable repr : pyval → string.

Lemma normalize_record_steps (record : epc_record) :
  normalize_record dateutil_parse utcnow record =
  derive_expired dateutil_parse utcnow (fill_defaults record defaults).
Proof.
  unfold normalize_record, derive_expired, fill_defaults.
  lazy zeta. reflexivity.
Qed.

Lemma setdefault_lookup_present (record : epc_record) (k key : string)
    (v default : pyval) :
  record !! k = Some v → setdefault record key default !! k = Some v.
Proof.
  intros Hk. unfold setdefault.
  destruct (record !! key) eqn:Hkey; [done|].
  rewrite lookup_insert_ne; [done|]. congruence.
Qed.

Lemma fill_defaults_lookup_present (l : list (string * pyval))
    (record : epc_record) (k : string) (v : pyval) :
  record !! k = Some v → fill_defaults record l !! k = Some v.
Proof.
  revert record. induction l as [|[key default] l IH]; intros record Hk.
  - done.
  - simpl. apply IH. by apply setdefault_lookup_present.
Qed.

(** After the loop over [defaults], every one of its keys is in the
    record. *)
Lemma fill_defaults_keys (l : list (string * pyval)) (record : epc_record)
    (key : string) :
  key ∈ l.*1 → is_Some (fill_defaults record l !! key).
Proof.
  revert record. induction l as [|[k default] l IH]; intros record Hin.
  - by apply elem_of_nil in Hin.
  - simpl in *. apply elem_of_cons in Hin as [->|Hin]; [|by apply IH].
    unfold setdefault. destruct (record !! k) as [v|] eqn:Hk.
    + exists v. by apply fill_defaults_lookup_present.
    + exists default. apply fill_defaults_lookup_present.
      by rewrite lookup_insert_eq.
Qed.

(** A record that has every key is left as it is. *)
Lemma fill_defaults_id (l : list (string * pyval)) (record : epc_record) :
  (∀ key, key ∈ l.*1 → is_Some (record !! key)) →
  fill_defaults record l = record.
Proof.
  induction l as [|[k default] l IH]; intros Hkeys; [done|].
  simpl. unfold setdefault.
  destruct (Hkeys k) as [v ->]; [simpl; left|].
  apply IH. intros key Hin. apply Hkeys. simpl. by right.
Qed.

Lemma get_insert_ne (record : epc_record) (k k' : string) (v : pyval) :
  k ≠ k' → get (<[ k := v ]> record) k' = get record k'.
Proof. intros Hne. unfold get. by rewrite lookup_insert_ne. Qed.

Lemma get_insert_eq (record : epc_record) (k : string) (v : pyval) :
  get (<[ k := v ]> record) k = v.
Proof. unfold get. by rewrite lookup_insert_eq. Qed.

(** A record that went through [normalize_record] goes through it again
    unchanged. *)
Lemma derive_expired_fixed (record record' : epc_record) :
  derive_expired dateutil_parse utcnow record = Ok record' →
  derive_expired dateutil_parse utcnow record' = Ok record'.
Proof.
  unfold derive_expired.
  destruct (is_none (get record "expired")) eqn:Hexp.
  - destruct (is_expired dateutil_parse utcnow (get record "validtillDate")
                None) as [e|] eqn:He; [|done].
    intros [= <-].
    rewrite get_insert_eq, get_insert_ne by done.
    destruct e as [b|]; [done|].
    cbn [of_optional_bool is_none]. rewrite He.
    cbn [of_optional_bool mbind result_bind]. by rewrite insert_insert_eq.
  - intros [= <-]. by rewrite Hexp.
Qed.

Lemma derive_expired_keys (record record' : epc_record) (key : string) :
  derive_expired dateutil_parse utcnow record = Ok record' →
  is_Some (record !! key) → is_Some (record' !! key).
Proof.
  unfold derive_expired.
  destruct (is_none (get record "expired")); [|by intros [= <-]].
  destruct (is_expired _ _ _ _) as [e|]; [|done].
  intros [= <-] Hkey. destruct (decide (key = "expired")) as [->|Hne].
  - by rewrite lookup_insert_eq.
  - by rewrite lookup_insert_ne.
Qed.

(** A record that went through [normalize_record] goes through it again
    unchanged. *)
Lemma normalize_record_fixed (record record' : epc_record) :
  normalize_record dateutil_parse utcnow record = Ok record' →
  normalize_record dateutil_parse utcnow record' = Ok record'.
Proof.
  rewrite (normalize_record_steps record), (normalize_record_steps record').
  intros Hn. rewrite (fill_defaults_id defaults record').
  - by apply (derive_expired_fixed _ _ Hn).
  - intros key Hin. apply (derive_expired_keys _ _ _ Hn).
    by apply fill_defaults_keys.
Qed.

(** C3.  [normalize_record] is idempotent at a fixed reference time: a
    second application to the record the first one returns gives the same
    record, every key and every value, the [expired] flag included (and when
    the first raises there is no record to apply it to again). *)
Theorem normalize_record_idempotent (record : epc_record) :
  normalize_record dateutil_parse utcnow record
    ≫= normalize_record dateutil_parse utcnow
  = normalize_record dateutil_parse utcnow record.
Proof.
  destruct (normalize_record dateutil_parse utcnow record) as [record'|e]
    eqn:Hn; [|reflexivity].
  exact (normalize_record_fixed record record' Hn).
Qed.

(** [normalize_record] returns a record unless the date it has to compare
    with the clock carries a time zone. *)
Lemma normalize_record_returns (record : epc_record) :
  (∀ s dt, dateutil_parse s = Some dt → aware dt = false) →
  ∃ record', normalize_record dateutil_parse utcnow record = Ok record'
             ∧ ∀ key, key ∈ defaults.*1 → is_Some (record' !! key).
Proof.
  intros Hnaive. rewrite (normalize_record_steps record).
  set (record1 := fill_defaults record defaults).
  assert (∃ record', derive_expired dateutil_parse utcnow record1 = Ok record')
    as [record' Hn].
  { unfold derive_expired.
    destruct (is_none (get record1 "expired")); [|by eauto].
    assert (∃ e, is_expired dateutil_parse utcnow
                   (get record1 "validtillDate") None = Ok e) as [e ->].
    { unfold is_expired, parse_date.
      destruct (truthy (get record1 "validtillDate")); [|by eauto].
      destruct (get record1 "validtillDate") as [| | |s| |]; try by eauto.
      destruct (dateutil_parse s) as [dt|] eqn:Hdt; [|by eauto].
      unfold datetime_lt. rewrite (Hnaive _ _ Hdt).
      cbn [aware Bool.eqb]. by eauto. }
    by eauto. }
  exists record'. split; [done|].
  intros key Hin. apply (derive_expired_keys _ _ _ Hn).
  by apply fill_defaults_keys.
Qed.

End ValidationProofs.

Section RatingProofs.
Import Validation Spec.

Variable repr : pyval → string.

Lemma rating_error_not_missing (rating : pyval) (field : string) :
  rating_error repr rating ≠ missing_error field.
Proof.
  unfold rating_error, missing_error, expired_error. intros H.
  apply (f_equal (String.get 0)) in H. discriminate H.
Qed.

Lemma rating_error_not_expired (rating : pyval) :
  rating_error repr rating ≠ expired_error.
Proof.
  unfold rating_error, missing_error, expired_error. intros H.
  apply (f_equal (String.get 0)) in H. discriminate H.
Qed.

Lemma required_errors_missing (record : epc_record) (e : string) :
  e ∈ required_errors record → ∃ field, e = missing_error field.
Proof.
  unfold required_errors, required_fields. simpl.
  repeat match goal with
         | |- context [truthy ?v] => destruct (truthy v)
         end; simpl;
  rewrite ?elem_of_cons, ?elem_of_nil; naive_solver.
Qed.

Lemma rating_error_fresh (record : epc_record) (rating : pyval) :
  rating_error repr rating ∉ required_errors record.
Proof.
  intros [field Hf]%required_errors_missing.
  by apply rating_error_not_missing in Hf.
Qed.

(** The verdict and the errors with the rating check left out: what
    [validate_epc_record] returns when the check adds nothing. *)
Lemma validate_tail (record : epc_record) (errors : list string)
    (e : string) :
  e ≠ expired_error →
  (e ∈ (if truthy (get record "validtillDate")
           && is_none (get record "expired")
        then errors ++ [expired_error] else errors)) ↔ e ∈ errors.
Proof.
  intros Hne. destruct (_ && _); [|done].
  rewrite elem_of_app, list_elem_of_singleton. naive_solver.
Qed.

(** The rating check on a rating that has a last token: the band is the
    token in upper case. *)
Lemma check_rating_verdict (record : epc_record) (s tok : string)
    (errors : list string) :
  record !! "rating" = Some (PStr s) →
  last (split s) = Some tok →
  check_rating repr record errors =
  Ok (if decide (upper tok ∈ bands) then errors
      else errors ++ [rating_error repr (PStr s)]).
Proof.
  intros Hr Htok.
  assert (get record "rating" = PStr s) as Hget by (unfold get; by rewrite Hr).
  assert (truthy (PStr s) = true) as Htr by (by destruct s).
  unfold check_rating. rewrite Hget, Htr. cbn [str].
  rewrite last_token_normalised, Htok. cbn [fmap option_fmap option_map].
  by destruct (decide (upper tok ∈ bands)).
Qed.

Lemma validate_epc_record_steps (record : epc_record) :
  validate_epc_record repr record =
  errors ← check_rating repr record (required_errors record);
  Ok (bool_decide
        ((if truthy (get record "validtillDate")
             && is_none (get record "expired")
          then errors ++ [expired_error] else errors) = []),
      if truthy (get record "validtillDate") && is_none (get record "expired")
      then errors ++ [expired_error] else errors).
Proof. reflexivity. Qed.

Lemma upper_band (tok : string) : tok ∈ bands → upper tok = tok.
Proof.
  unfold bands. simpl. rewrite !elem_of_cons, elem_of_nil.
  intros H. by repeat destruct H as [->|H].
Qed.

(** The first half of C7 holds as written: a last token that is one of the
    letters A to G passes the check. *)
Lemma rating_check_band_passes (record : epc_record) (s tok : string) :
  record !! "rating" = Some (PStr s) →
  last (split s) = Some tok →
  tok ∈ bands →
  ∃ errors,
    validate_epc_record repr record = Ok (bool_decide (errors = []), errors)
    ∧ rating_error repr (PStr s) ∉ errors.
Proof.
  intros Hr Htok Hband.
  rewrite validate_epc_record_steps, (check_rating_verdict _ _ _ _ Hr Htok).
  rewrite (upper_band _ Hband), decide_True by done.
  eexists. split; [reflexivity|].
  rewrite validate_tail by apply rating_error_not_expired.
  apply rating_error_fresh.
Qed.



End RatingProofs.

Section RatingExamples.
Import Validation Spec.




End RatingExamples.

(** ** main.py *)

Section MainProofs.
Import Main Spec.

Lemma dict_set_keys (seen : list (string * epc_record)) (k : string)
    (v : epc_record) :
  (dict_set seen k v).*1 = if decide (k ∈ seen.*1) then seen.*1
                           else seen.*1 ++ [k].
Proof.
  induction seen as [|[k' v'] seen IH]; [done|]. csimpl.
  destruct (decide (k' = k)) as [->|Hne].
  - rewrite decide_True; [done|]. by left.
  - csimpl. rewrite IH. destruct (decide (k ∈ seen.*1)) as [Hin|Hout].
    + rewrite decide_True; [done|]. by right.
    + rewrite decide_False; [done|].
      intros [?|?]%elem_of_cons; congruence.
Qed.

Lemma dict_set_NoDup (seen : list (string * epc_record)) (k : string)
    (v : epc_record) :
  NoDup seen.*1 → NoDup (dict_set seen k v).*1.
Proof.
  intros Hnd. rewrite dict_set_keys. case_decide; [done|].
  apply NoDup_app. split_and!; [done| |apply NoDup_singleton].
  intros x Hx ->%list_elem_of_singleton. done.
Qed.

Lemma elem_of_dict_set (seen : list (string * epc_record)) (k k' : string)
    (v v' : epc_record) :
  NoDup seen.*1 →
  (k', v') ∈ dict_set seen k v ↔
  (k' = k ∧ v' = v) ∨ (k' ≠ k ∧ (k', v') ∈ seen).
Proof.
  induction seen as [|[k1 v1] seen IH]; intros Hnd.
  - csimpl. rewrite list_elem_of_singleton, elem_of_nil. naive_solver.
  - csimpl in *. apply NoDup_cons in Hnd as [Hk1 Hnd].
    destruct (decide (k1 = k)) as [->|Hne].
    + rewrite !elem_of_cons. split.
      * intros [[= -> ->]|Hin]; [by left|]. right. split; [|by right].
        intros ->. apply Hk1. apply list_elem_of_fmap. by exists (k, v').
      * intros [[-> ->]|[Hne [[= -> ->]|Hin]]]; [by left|done|by right].
    + rewrite !elem_of_cons, IH by done. split.
      * intros [[= -> ->]|[[-> ->]|[? ?]]]; [|by left|].
        -- right. split; [done|by left].
        -- right. split; [done|by right].
      * intros [[-> ->]|[Hk [[= -> ->]|Hin]]].
        -- right. by left.
        -- by left.
        -- right. right. done.
Qed.

Lemma last_seen_snoc (l : list (string * epc_record)) (k k0 : string)
    (v0 : epc_record) :
  last_seen (l ++ [(k0, v0)]) k =
  if decide (k0 = k) then Some v0 else last_seen l k.
Proof.
  unfold last_seen. rewrite filter_app.
  destruct (decide (k0 = k)) as [->|Hne].
  - rewrite (filter_cons_True _ (k, v0)) by done.
    by rewrite filter_nil, last_snoc.
  - rewrite (filter_cons_False _ (k0, v0)) by done.
    by rewrite filter_nil, app_nil_r.
Qed.

Lemma without_id_prefix (records : list epc_record) (rec : epc_record)
    (n : nat) :
  (n ≤ length records)%nat →
  without_id (records ++ [rec]) n = without_id records n.
Proof. intros Hn. unfold without_id. by rewrite take_app_le. Qed.

Lemma labelled_snoc (records : list epc_record) (rec : epc_record) :
  labelled (records ++ [rec]) =
  labelled records ++ [labelled_at (records ++ [rec]) (length records) rec].
Proof.
  unfold labelled. rewrite imap_app. simpl. f_equal.
  - apply imap_ext. intros i r Hi. unfold labelled_at.
    destruct (id_of r); [done|].
    rewrite without_id_prefix; [done|].
    apply lookup_lt_Some in Hi. lia.
  - by rewrite Nat.add_0_r.
Qed.

Lemma without_id_all (records : list epc_record) (rec : epc_record) :
  without_id (records ++ [rec]) (S (length records)) =
  without_id records (length records)
  ++ (if decide (id_of rec = None) then [rec] else []).
Proof.
  unfold without_id.
  rewrite take_ge by (rewrite length_app; simpl; lia).
  rewrite take_ge by done.
  by rewrite filter_app.
Qed.

Lemma id_of_Some (rec : epc_record) (s : string) :
  id_of rec = Some s → rec !! "id" = Some (PStr s).
Proof.
  unfold id_of. destruct (rec !! "id") as [[]|]; try done.
  case_decide; [done|]. by intros [= ->].
Qed.

(** The loop of [deduplicate_records]: what [seen] and the counter hold
    after the records. *)
Lemma dedup_loop (records : list epc_record) :
  Forall id_typed records →
  ∃ seen,
    foldl dedup_step (Some ([], 0)) records =
      Some (seen, length (without_id records (length records)))
    ∧ NoDup seen.*1
    ∧ (∀ k rec, (k, rec) ∈ seen ↔ last_seen (labelled records) k = Some rec)
    ∧ (∀ k rec, (k, rec) ∈ seen → rec !! "id" = Some (PStr k)).
Proof.
  induction records as [|rec records IH] using rev_ind; intros Hty.
  - exists []. split_and!; [done|constructor| |].
    + intros k rec. rewrite elem_of_nil. by unfold last_seen.
    + intros k rec []%elem_of_nil.
  - apply Forall_app in Hty as [Hty Hrec]. apply Forall_inv in Hrec.
    destruct (IH Hty) as (seen & Hloop & Hnd & Hseen & Hid).
    rewrite foldl_snoc, Hloop, labelled_snoc. simpl.
    rewrite (view_id_typed _ Hrec). unfold labelled_at.
    rewrite length_app, Nat.add_1_r, without_id_all.
    destruct (id_of rec) as [s|] eqn:Hs.
    + rewrite decide_False by done. rewrite app_nil_r.
      exists (dict_set seen s rec). split_and!; [done|by apply dict_set_NoDup| |].
      * intros k r. rewrite elem_of_dict_set, last_seen_snoc by done.
        destruct (decide (s = k)) as [->|Hne]; [naive_solver|].
        rewrite <- Hseen. naive_solver.
      * intros k r [[-> ->]|[_ Hin]]%elem_of_dict_set; [|by auto|done].
        by apply id_of_Some.
    + rewrite decide_True by done. rewrite length_app. simpl.
      rewrite Nat.add_1_r.
      set (n := S (length (without_id records (length records)))).
      exists (dict_set seen (anonymous n) (<[ "id" := PStr (anonymous n) ]> rec)).
      split_and!; [done|by apply dict_set_NoDup| |].
      * intros k r. rewrite elem_of_dict_set, last_seen_snoc by done.
        destruct (decide (anonymous n = k)) as [->|Hne]; [naive_solver|].
        rewrite <- Hseen. naive_solver.
      * intros k r [[-> ->]|[_ Hin]]%elem_of_dict_set; [|by auto|done].
        by rewrite lookup_insert_eq.
Qed.

Lemma labelled_lookup (records : list epc_record) (i : nat)
    (rec : epc_record) :
  records !! i = Some rec →
  labelled records !! i = Some (labelled_at records i rec).
Proof. intros Hi. unfold labelled. by rewrite list_lookup_imap, Hi. Qed.

Lemma keyed_values (seen : list (string * epc_record)) :
  (∀ k rec, (k, rec) ∈ seen → rec !! "id" = Some (PStr k)) →
  Forall2 (λ rec k, rec !! "id" = Some (PStr k)) seen.*2 seen.*1.
Proof.
  induction seen as [|[k rec] seen IH]; intros Hid; csimpl.
  - constructor.
  - constructor; [apply Hid; by left|].
    apply IH. intros k' rec' Hin. apply Hid. by right.
Qed.

(** C8.  On records whose [id] is a [str] or absent, the output of
    [deduplicate_records] carries pairwise distinct [id]s; the record it
    keeps under an [id] is the last one seen with it; and a record without
    an [id] enters the loop's dictionary as ["anonymous-N"], [N] counting the
    records without an [id] up to and including it, so from 1. *)
Theorem deduplicate_records_spec (records : list epc_record) :
  Forall id_typed records →
  ∃ out keys,
    deduplicate_records records = Some out
    ∧ Forall2 (λ rec k, rec !! "id" = Some (PStr k)) out keys
    ∧ NoDup keys
    ∧ (∀ k rec, rec ∈ out ∧ rec !! "id" = Some (PStr k) ↔
                last_seen (labelled records) k = Some rec)
    ∧ (∀ i rec, records !! i = Some rec → id_of rec = None →
                let rec_id := anonymous (length (without_id records (S i))) in
                labelled records !! i
                  = Some (rec_id, <[ "id" := PStr rec_id ]> rec)).
Proof.
  intros Hty. destruct (dedup_loop records Hty) as (seen & Hloop & Hnd & Hseen & Hid).
  exists seen.*2, seen.*1. unfold deduplicate_records. rewrite Hloop.
  split_and!; [done|by apply keyed_values|done| |].
  - intros k rec. rewrite <- Hseen. split.
    + intros [Hin Hk]. apply list_elem_of_fmap in Hin as [[k' rec'] [-> Hin]].
      simpl in *. pose proof (Hid _ _ Hin) as Hk'.
      rewrite Hk in Hk'. by simplify_eq.
    + intros Hin. split; [|by apply Hid].
      apply list_elem_of_fmap. by exists (k, rec).
  - intros i rec Hi Hnone. rewrite (labelled_lookup _ _ _ Hi).
    unfold labelled_at. by rewrite Hnone.
Qed.

End MainProofs.

Section MainExamples.
Import Main Spec.

Lemma deduplicate_records_spec_witness :
  let records : list epc_record :=
    [ {[ "id" := PStr "abc"; "n" := PInt 1 ]}; ∅;
      {[ "id" := PStr "abc"; "n" := PInt 2 ]} ] in
  Forall id_typed records ∧
  ∃ out keys,
    deduplicate_records records = Some out
    ∧ Forall2 (λ rec k, rec !! "id" = Some (PStr k)) out keys
    ∧ NoDup keys
    ∧ (∀ k rec, rec ∈ out ∧ rec !! "id" = Some (PStr k) ↔
                last_seen (labelled records) k = Some rec)
    ∧ (∀ i rec, records !! i = Some rec → id_of rec = None →
                let rec_id := anonymous (length (without_id records (S i))) in
                labelled records !! i
                  = Some (rec_id, <[ "id" := PStr rec_id ]> rec)).
Proof.
  intros records.
  assert (Forall id_typed records) as Hty.
  { repeat constructor.
    - intros _. by exists "abc".
    - intros H. discriminate H.
    - intros _. by exists "abc". }
  split; [exact Hty|].
  exact (deduplicate_records_spec records Hty).
Defined.

(** The run of the specification: the two records that share ["abc"]
    collapse to the later one, in the place of the first, and the record
    without an [id] becomes ["anonymous-1"]. *)
Example deduplicate_records_run :
  deduplicate_records
    [ {[ "id" := PStr "abc"; "n" := PInt 1 ]}; ∅;
      {[ "id" := PStr "abc"; "n" := PInt 2 ]} ] =
  Some [ {[ "id" := PStr "abc"; "n" := PInt 2 ]};
         {[ "id" := PStr "anonymous-1" ]} ].
Proof. by_evaluation. Qed.

End MainExamples.

(** ** extractors/epc_parser.py: the listing page *)

Section ListingProofs.
Import Parser Spec.

Variable urljoin : string → string → string.
Variable lxml : string → node.

Lemma anchors_loop (base_url : string) (hrefs : list string) :
  ∀ urls : gset string,
    foldl (listing_anchor urljoin base_url) urls hrefs =
    urls ∪ list_to_set
             ((λ href, build_absolute_url urljoin href base_url) <$>
                filter (λ href, contains href token_prefix) hrefs).
Proof.
  induction hrefs as [|href hrefs IH]; intros urls.
  - simpl. set_solver.
  - cbn [foldl]. rewrite IH. unfold listing_anchor.
    destruct (contains href token_prefix) eqn:Hc.
    + rewrite filter_cons_True by (by apply Is_true_true_2).
      csimpl. set_solver.
    + rewrite filter_cons_False by (by apply Is_true_false_2). done.
Qed.

Lemma tokens_loop (base_url : string) (tokens : list string) :
  ∀ urls : gset string,
    foldl (listing_token urljoin base_url) urls tokens =
    urls ∪ list_to_set
             ((λ href, build_absolute_url urljoin href base_url) <$>
                omap (λ token,
                        (λ i, slice_from i token) <$> find token token_prefix)
                     tokens).
Proof.
  induction tokens as [|token tokens IH]; intros urls.
  - simpl. set_solver.
  - cbn [foldl omap list_omap]. rewrite IH. unfold listing_token.
    destruct (find token token_prefix) as [i|]; csimpl; set_solver.
Qed.

(** The three ways an [href] is made absolute. *)
Lemma build_absolute_url_cases (href base_url : string) :
  build_absolute_url urljoin href base_url =
  if startswith href "http://" || startswith href "https://" then href
  else if startswith href "/" then urljoin DEFAULT_BASE href
  else urljoin base_url href.
Proof. reflexivity. Qed.

(** C4.  [parse_listing_page] lists once each, in increasing order, the
    absolute forms of the [href]s of the anchors that contain
    ["/energy-certificate/"], or of the [href]s rebuilt from the text when
    (and only when) no anchor matches; an [href] that starts with
    ["http://"] or ["https://"] is its own absolute form, one that starts
    with ["/"] is joined to the canonical origin, any other to the base
    URL. *)
Theorem parse_listing_page_spec (html base_url : string) :
  sorted_listing
    ((λ href, build_absolute_url urljoin href base_url) <$>
       listing_hrefs (lxml html))
    (parse_listing_page urljoin lxml html base_url)
  ∧ (listing_hrefs (lxml html) = candidate_hrefs (lxml html)
     ∨ candidate_hrefs (lxml html) = []
       ∧ listing_hrefs (lxml html) = fallback_hrefs (lxml html))
  ∧ (∀ href,
       build_absolute_url urljoin href base_url =
       if startswith href "http://" || startswith href "https://" then href
       else if startswith href "/"
            then urljoin "https://find-energy-certificate.service.gov.uk" href
            else urljoin base_url href).
Proof.
  split_and!.
  - unfold parse_listing_page. rewrite anchors_loop.
    fold (candidate_hrefs (lxml html)). unfold listing_hrefs.
    destruct (candidate_hrefs (lxml html)) as [|href hrefs] eqn:Hc.
    + rewrite decide_True by (csimpl; set_solver).
      rewrite tokens_loop. fold (fallback_hrefs (lxml html)).
      apply sorted_set_listing_of. intros x. csimpl. set_solver.
    + rewrite decide_False by (csimpl; set_solver).
      apply sorted_set_listing_of. intros x. set_solver.
  - unfold listing_hrefs. destruct (candidate_hrefs (lxml html)); auto.
  - intros href. apply build_absolute_url_cases.
Qed.

End ListingProofs.

(** ** extractors/epc_parser.py: the tables of a certificate *)

Section TableProofs.
Import Parser Spec.




















End TableProofs.

Section TableExamples.
Import Parser Spec Samples.

(** The run of the specification, with a join that is right for a path
    joined to an origin. *)
Example parse_listing_page_run :
  parse_listing_page (λ base href, base +:+ href) (λ _, listing_page)
                     "<html>" "https://example.org/search" =
  [ "https://find-energy-certificate.service.gov.uk/energy-certificate/1234-5678";
    "https://other.example/energy-certificate/9999" ].
Proof. by_evaluation. Qed.


Example parse_features_run :
  parse_features features_page =
  [ feature_record (PStr "Wall") (PStr "Cavity wall") (PStr "Good") ].
Proof. by_evaluation. Qed.


Example parse_changes_run :
  parse_changes changes_page =
  [ change_record (PStr "Loft insulation") (PStr "100 - 350") (PStr "45")
                  (PStr "72 C") ].
Proof. by_evaluation. Qed.

End TableExamples.

(** ** monitoring/tracker.py: runs that follow one another *)

Section TrackerRuns.
Import Tracker Spec.

Lemma is_new_current (records : list epc_record) (ids : gset string)
    (rec : epc_record) :
  rec ∈ records → current_ids records ⊆ ids → ¬ is_new ids rec.
Proof.
  intros Hin Hsub. unfold is_new.
  destruct (id_of rec) as [s|] eqn:Hs; [|by intros []].
  intros Hnew%bool_decide_unpack. apply Hnew, Hsub.
  unfold current_ids. rewrite elem_of_list_to_set, list_elem_of_omap. eauto.
Qed.

Lemma filter_nil_Forall {A : Type} (P : A → Prop) `{∀ x, Decision (P x)}
    (l : list A) :
  (∀ x, x ∈ l → ¬ P x) → filter P l = [].
Proof.
  induction l as [|x l IH]; intros Hl; [done|].
  rewrite filter_cons_False by (apply Hl; by left).
  apply IH. intros y Hy. apply Hl. by right.
Qed.

(** [detect_changes] in closed form. *)
Lemma detect_changes_eq (records : list epc_record)
    (previous_ids : gset string) :
  Forall id_typed records →
  detect_changes records previous_ids =
  Some (filter (is_new previous_ids) records,
        stub <$> sorted_set (previous_ids ∖ current_ids records),
        previous_ids ∪ current_ids records).
Proof.
  intros Hty. unfold detect_changes. rewrite (detect_loop _ _ Hty).
  cbn [mbind option_bind]. by rewrite (left_id_L ∅ (∪)).
Qed.

Lemma detect_changes_again (records : list epc_record)
    (previous_ids : gset string) :
  Forall id_typed records →
  detect_changes records (previous_ids ∪ current_ids records) =
  Some ([], stub <$> sorted_set (previous_ids ∖ current_ids records),
        previous_ids ∪ current_ids records).
Proof.
  intros Hty. rewrite (detect_changes_eq _ _ Hty).
  rewrite (filter_nil_Forall (is_new _)).
  2:{ intros rec Hin. apply (is_new_current records); [done|set_solver]. }
  f_equal. f_equal; [f_equal|].
  - f_equal. f_equal. set_solver.
  - set_solver.
Qed.

(** X1.  A second run of [detect_changes] on the same records, with the ID
    set the first run returned, reports no new record, reports the removed
    IDs again, and returns the same ID set. *)
Theorem detect_changes_rerun (records new_records removed : list epc_record)
    (previous_ids updated : gset string) :
  Forall id_typed records →
  detect_changes records previous_ids = Some (new_records, removed, updated) →
  detect_changes records updated = Some ([], removed, updated).
Proof.
  intros Hty. rewrite (detect_changes_eq _ _ Hty). intros [= <- <- <-].
  by apply detect_changes_again.
Qed.

(** X2.  The ID set that [detect_changes] returns keeps every previous ID,
    the removed ones included; a new record has an [id] that was not a
    previous ID; a removed stub has an [id] that was one and that no current
    record has. *)
Theorem detect_changes_state (records new_records removed : list epc_record)
    (previous_ids updated : gset string) :
  Forall id_typed records →
  detect_changes records previous_ids = Some (new_records, removed, updated) →
  previous_ids ⊆ updated
  ∧ (∀ rec, rec ∈ new_records →
            rec ∈ records ∧
            ∃ k, id_of rec = Some k ∧ k ∈ updated ∧ k ∉ previous_ids)
  ∧ (∀ rec, rec ∈ removed →
            ∃ k, rec = stub k ∧ k ∈ previous_ids ∧ k ∈ updated
                 ∧ ∀ rec', rec' ∈ records → id_of rec' ≠ Some k).
Proof.
  intros Hty. unfold detect_changes. rewrite (detect_loop _ _ Hty).
  cbn [mbind option_bind]. intros [= <- <- <-]. split_and!.
  - set_solver.
  - intros rec [Hnew Hin]%list_elem_of_filter. split; [done|].
    unfold is_new in Hnew. destruct (id_of rec) as [k|] eqn:Hk; [|done].
    apply bool_decide_unpack in Hnew. exists k. split_and!; [done| |done].
    apply elem_of_union_r, elem_of_union_r. unfold current_ids.
    rewrite elem_of_list_to_set, list_elem_of_omap. eauto.
  - intros rec [k [-> Hk]]%list_elem_of_fmap. exists k.
    apply sorted_set_elem in Hk.
    apply elem_of_difference in Hk as [Hprev Hcur].
    split_and!; [done|done|set_solver|].
    intros rec' Hin Hid. apply Hcur, elem_of_union_r. unfold current_ids.
    rewrite elem_of_list_to_set, list_elem_of_omap. eauto.
Qed.

End TrackerRuns.

(** ** main.py: more on [deduplicate_records] *)

Section DedupMore.
Import Main Spec SpecExtra.

Lemma anonymous_nonempty (n : nat) : anonymous n ≠ "".
Proof. unfold anonymous. intros H. discriminate H. Qed.

Lemma id_of_view (rec : epc_record) (k : string) :
  id_of rec = Some k → view_id rec = StrId k.
Proof.
  unfold id_of, view_id, get.
  destruct (rec !! "id") as [[| | |s| |]|]; try done.
  case_decide as Hs; [done|]. intros [= ->]. simpl.
  apply String.eqb_neq in Hs. by rewrite Hs.
Qed.

Lemma id_of_insert (rec : epc_record) (k : string) :
  k ≠ "" → id_of (<[ "id" := PStr k ]> rec) = Some k.
Proof.
  intros Hk. unfold id_of. rewrite lookup_insert_eq. by rewrite decide_False.
Qed.

(** One turn of the loop enters the record as [labelled_at] describes it. *)
Lemma dedup_step_labelled (records : list epc_record) (rec : epc_record)
    (seen : list (string * epc_record)) :
  id_typed rec →
  dedup_step (Some (seen, length (without_id records (length records)))) rec =
  Some (dict_set seen (labelled_at (records ++ [rec]) (length records) rec).1
                      (labelled_at (records ++ [rec]) (length records) rec).2,
        length (without_id (records ++ [rec]) (length (records ++ [rec])))).
Proof.
  intros Hrec. cbn [dedup_step mbind option_bind].
  rewrite (view_id_typed _ Hrec). unfold labelled_at.
  rewrite length_app, Nat.add_1_r, without_id_all.
  destruct (id_of rec) as [s|] eqn:Hs.
  - rewrite decide_False by done. by rewrite app_nil_r.
  - rewrite decide_True by done. rewrite length_app, Nat.add_1_r. done.
Qed.

(** Every entry of [labelled] carries the [id] of its record. *)
Lemma labelled_id (records : list epc_record) (k : string)
    (rec : epc_record) :
  (k, rec) ∈ labelled records → id_of rec = Some k.
Proof.
  intros [i Hi]%list_elem_of_lookup. unfold labelled in Hi.
  rewrite list_lookup_imap in Hi.
  destruct (records !! i) as [r|]; [|done]. simpl in Hi.
  unfold labelled_at in Hi. destruct (id_of r) as [s|] eqn:Hs.
  - by simplify_eq.
  - injection Hi as <- <-. apply id_of_insert, anonymous_nonempty.
Qed.

Lemma last_seen_labelled (l : list (string * epc_record)) (k : string)
    (rec : epc_record) :
  last_seen l k = Some rec → (k, rec) ∈ l.
Proof.
  unfold last_seen. intros Hl.
  destruct (last (filter (λ p, p.1 = k) l)) as [[k' rec']|] eqn:Hlast;
    [|done].
  simpl in Hl. injection Hl as ->.
  apply last_Some_elem_of, list_elem_of_filter in Hlast as [Hk Hin].
  simpl in Hk. by subst.
Qed.

Lemma dict_set_fresh (seen : list (string * epc_record)) (k : string)
    (v : epc_record) :
  k ∉ seen.*1 → dict_set seen k v = seen ++ [(k, v)].
Proof.
  induction seen as [|[k' v'] seen IH]; intros Hk; [done|]. csimpl in *.
  apply not_elem_of_cons in Hk as [Hne Hk].
  rewrite decide_False by done. by rewrite IH.
Qed.

(** The loop on records that carry pairwise distinct [id]s, none of them
    seen before, appends them one by one. *)
Lemma dedup_loop_distinct (l seen : list (string * epc_record)) (n : nat) :
  NoDup (seen.*1 ++ l.*1) →
  (∀ k rec, (k, rec) ∈ l → id_of rec = Some k) →
  foldl dedup_step (Some (seen, n)) l.*2 = Some (seen ++ l, n).
Proof.
  revert seen. induction l as [|[k rec] l IH]; intros seen Hnd Hid.
  - by rewrite app_nil_r.
  - csimpl. rewrite (id_of_view rec k) by (apply Hid; by left).
    rewrite dict_set_fresh.
    2:{ apply NoDup_app in Hnd as (_ & Hdis & _). intros Hin.
        apply (Hdis k Hin). csimpl. by left. }
    rewrite IH.
    + by rewrite <- app_assoc.
    + rewrite fmap_app. csimpl. rewrite <- app_assoc. exact Hnd.
    + intros k' rec' Hin. apply Hid. by right.
Qed.

(** X3.  [deduplicate_records] is idempotent: its output, which carries
    pairwise distinct [id]s, goes through it again unchanged. *)
Theorem deduplicate_records_idempotent (records out : list epc_record) :
  Forall id_typed records →
  deduplicate_records records = Some out →
  deduplicate_records out = Some out.
Proof.
  intros Hty. unfold deduplicate_records.
  destruct (dedup_loop records Hty) as (seen & Hloop & Hnd & Hseen & _).
  rewrite Hloop. cbn [mbind option_bind]. intros [= <-].
  rewrite (dedup_loop_distinct seen [] 0); [done|done|].
  intros k rec Hin. apply (labelled_id records).
  by apply last_seen_labelled, Hseen.
Qed.

Lemma first_occurrences_snoc (keys : list string) (k : string) :
  first_occurrences (keys ++ [k]) =
  if decide (k ∈ first_occurrences keys) then first_occurrences keys
  else first_occurrences keys ++ [k].
Proof.
  unfold first_occurrences. rewrite reverse_snoc.
  change (remove_dups (k :: reverse keys)) with
    (if decide (k ∈ reverse keys) then remove_dups (reverse keys)
     else k :: remove_dups (reverse keys)).
  destruct (decide (k ∈ reverse keys)) as [Hin|Hout].
  - rewrite decide_True; [done|].
    by rewrite elem_of_reverse, elem_of_remove_dups.
  - rewrite decide_False.
    + by rewrite reverse_cons.
    + by rewrite elem_of_reverse, elem_of_remove_dups.
Qed.

Lemma first_occurrences_length (keys : list string) :
  (length (first_occurrences keys) ≤ length keys)%nat.
Proof.
  unfold first_occurrences. rewrite length_reverse.
  rewrite <- (length_reverse keys).
  apply submseteq_length, NoDup_submseteq; [apply NoDup_remove_dups|].
  intros x. by rewrite elem_of_remove_dups.
Qed.

(** The keys of [seen] after the loop. *)
Lemma dedup_loop_keys (records : list epc_record) :
  Forall id_typed records →
  ∀ seen n,
    foldl dedup_step (Some ([], 0)) records = Some (seen, n) →
    seen.*1 = first_occurrences (labelled records).*1.
Proof.
  induction records as [|rec records IH] using rev_ind; intros Hty seen n.
  - by intros [= <- <-].
  - apply Forall_app in Hty as [Hty Hrec]. apply Forall_inv in Hrec.
    destruct (dedup_loop records Hty) as (seen0 & Hloop & _).
    rewrite foldl_snoc, Hloop, (dedup_step_labelled _ _ _ Hrec).
    intros [= <- <-].
    rewrite labelled_snoc, fmap_app. cbn [fmap list_fmap].
    rewrite first_occurrences_snoc, dict_set_keys.
    by rewrite (IH Hty seen0 _ Hloop).
Qed.

(** X4.  The records of the output of [deduplicate_records] come in the
    order in which their [id]s first occur in the input: a later record with
    an [id] already seen takes the place of the earlier one. *)
Theorem deduplicate_records_order (records out : list epc_record) :
  Forall id_typed records →
  deduplicate_records records = Some out →
  omap id_of out = first_occurrences (labelled records).*1
  ∧ (length out ≤ length records)%nat.
Proof.
  intros Hty. unfold deduplicate_records.
  destruct (dedup_loop records Hty) as (seen & Hloop & Hnd & Hseen & _).
  rewrite Hloop. cbn [mbind option_bind]. intros [= <-].
  assert (omap id_of seen.*2 = seen.*1) as Hkeys.
  { assert (∀ k rec, (k, rec) ∈ seen → id_of rec = Some k) as Hid.
    { intros k rec Hin. apply (labelled_id records).
      by apply last_seen_labelled, Hseen. }
    clear -Hid. induction seen as [|[k rec] seen IH]; [done|]. csimpl.
    rewrite (Hid k rec) by (by left). csimpl. f_equal.
    apply IH. intros k' rec' Hin. apply Hid. by right. }
  rewrite Hkeys, (dedup_loop_keys records Hty seen _ Hloop). split; [done|].
  rewrite length_fmap, <- (length_fmap fst seen),
    (dedup_loop_keys records Hty seen _ Hloop).
  etrans; [apply first_occurrences_length|].
  unfold labelled. by rewrite length_fmap, length_imap.
Qed.

End DedupMore.

(** ** main.py: the run *)

Section RunProofs.
Import Main Tracker Spec SpecExtra Pipeline.

Variable repr : pyval → string.

Lemma id_of_typed (rec : epc_record) (k : string) :
  id_of rec = Some k → id_typed rec.
Proof. intros Hk%id_of_Some _. eauto. Qed.

(** The output of [deduplicate_records]: every record has an [id]. *)
Lemma deduplicate_records_ids (records out : list epc_record) :
  Forall id_typed records →
  deduplicate_records records = Some out →
  Forall (λ rec, is_Some (id_of rec)) out.
Proof.
  intros Hty. unfold deduplicate_records.
  destruct (dedup_loop records Hty) as (seen & Hloop & Hnd & Hseen & _).
  rewrite Hloop. cbn [mbind option_bind]. intros [= <-].
  apply Forall_forall. intros rec [[k rec'] [-> Hin]]%list_elem_of_fmap.
  exists k. apply (labelled_id records).
  by apply last_seen_labelled, Hseen.
Qed.

Lemma ids_typed (out : list epc_record) :
  Forall (λ rec, is_Some (id_of rec)) out → Forall id_typed out.
Proof.
  intros Hids. eapply Forall_impl; [exact Hids|].
  intros rec [k Hk]. by apply (id_of_typed rec k).
Qed.

Lemma load_save_elements (fs : filesystem) (path : string)
    (ids : gset string) :
  load_state repr (save_state fs path (elements ids)) path = Ok ids.
Proof.
  unfold load_state, save_state.
  rewrite lookup_insert_eq, lookup_singleton_eq. cbn [iterate mbind result_bind].
  rewrite str_set_strings, list_to_set_sorted_set.
  by rewrite list_to_set_elements_L.
Qed.

Lemma filter_all {A : Type} (P : A → Prop) `{∀ x, Decision (P x)}
    (l : list A) :
  (∀ x, x ∈ l → P x) → filter P l = l.
Proof.
  induction l as [|x l IH]; intros Hl; [done|].
  rewrite filter_cons_True by (apply Hl; by left).
  f_equal. apply IH. intros y Hy. apply Hl. by right.
Qed.

(** X5.  A monitoring run without a state file hands every deduplicated
    record to the export, reports nothing as removed, and leaves a state
    file from which [load_state] reads exactly the [id]s of those records. *)
Theorem run_records_first_run (fs : filesystem) (state_file : string)
    (records : list epc_record) :
  Forall id_typed records →
  fs !! state_file = None →
  ∃ out fs',
    deduplicate_records records = Some out
    ∧ run_records repr true fs state_file records = Some (Ok (out, fs'))
    ∧ load_state repr fs' state_file = Ok (list_to_set (omap id_of out)).
Proof.
  intros Hty Hfile.
  destruct (deduplicate_records records) as [out|] eqn:Hout.
  2:{ unfold deduplicate_records in Hout.
      destruct (dedup_loop records Hty) as (seen & Hloop & _).
      by rewrite Hloop in Hout. }
  pose proof (deduplicate_records_ids _ _ Hty Hout) as Hids.
  exists out. eexists. split; [done|].
  unfold run_records. rewrite Hout. cbn [mbind option_bind].
  unfold load_state at 1. rewrite Hfile.
  rewrite (detect_changes_eq _ _ (ids_typed _ Hids)).
  cbn [mbind option_bind].
  rewrite (filter_all (is_new ∅)).
  2:{ intros rec Hin. rewrite Forall_forall in Hids.
      destruct (Hids rec Hin) as [k Hk]. unfold is_new. rewrite Hk.
      apply bool_decide_pack. set_solver. }
  assert (∅ ∖ current_ids out = (∅ : gset string)) as -> by set_solver.
  assert (sorted_set ∅ = []) as ->.
  { apply Permutation_nil_r. unfold sorted_set.
    by rewrite sorted_perm, elements_empty. }
  rewrite app_nil_r. split; [done|].
  rewrite load_save_elements. f_equal. unfold current_ids. set_solver.
Qed.


End RunProofs.

(** ** extractors/epc_parser.py: texts and labels *)

Section TextProofs.
Import Parser Certificate Spec SpecExtra.

Lemma lstrip_black (s : string) : lstrip s = "" ∨ starts_black (lstrip s).
Proof.
  induction s as [|a s IH]; [by left|]. simpl.
  destruct (isspace a) eqn:Ha; [done|]. right. by exists a, s.
Qed.

Lemma rstrip_black (s : string) : starts_black s → starts_black (rstrip s).
Proof.
  intros (a & r & -> & Ha).
  destruct (rstrip_cons a r) as [Hnil|[r' Hr']].
  - simpl in Hnil. destruct (rstrip r); [|done]. by rewrite Ha in Hnil.
  - rewrite Hr'. by exists a, r'.
Qed.

Lemma strip_black (s : string) : strip s = "" ∨ starts_black (strip s).
Proof.
  unfold strip. destruct (lstrip_black s) as [->|Hb]; [by left|].
  right. by apply rstrip_black.
Qed.

Lemma stripped_string_black (n : node) (t : string) :
  stripped_string n = Some t → starts_black t.
Proof.
  destruct n as [s|]; [|done]. simpl. case_decide as Hs; [done|].
  intros [= <-]. by destruct (strip_black s).
Qed.


Lemma join_cons_black (sep t : string) (ts : list string) :
  starts_black t → starts_black (join sep (t :: ts)).
Proof.
  intros (a & r & -> & Ha). unfold join. simpl.
  destruct ts; [by exists a, r|]. by eexists a, _.
Qed.

(** The text of a node is empty when it has no piece, and starts with a
    character that is not white space otherwise. *)
Lemma get_text_pieces (sep : string) (n : node) :
  (pieces n = [] ∧ get_text sep n = "")
  ∨ (pieces n ≠ [] ∧ starts_black (get_text sep n)).
Proof.
  unfold get_text, pieces.
  destruct (omap stripped_string (descendants n)) as [|t ts] eqn:Hp.
  - by left.
  - right. split; [done|]. apply join_cons_black.
    assert (t ∈ omap stripped_string (descendants n)) as Hin
      by (rewrite Hp; by left).
    apply list_elem_of_omap in Hin as (d & _ & Hd).
    by apply (stripped_string_black d).
Qed.

Lemma get_text_black (sep : string) (n : node) :
  get_text sep n ≠ "" → starts_black (get_text sep n).
Proof. by destruct (get_text_pieces sep n) as [[_ ->]|[_ Hb]]. Qed.

(** A text that starts with a character that is not white space has a first
    and a last token. *)
Lemma starts_black_tokens (s : string) :
  starts_black s → ∃ first_token last_token,
    head (split s) = Some first_token ∧ last (split s) = Some last_token.
Proof.
  intros (a & r & -> & Ha).
  destruct (split (String a r)) as [|t ts] eqn:Hs.
  - apply split_nil_all_space in Hs. simpl in Hs. by rewrite Ha in Hs.
  - exists t. destruct (last (t :: ts)) as [l|] eqn:Hl; [by eauto|].
    by apply last_None in Hl.
Qed.

Lemma head_omap_Some {A B : Type} (f : A → option B) (l : list A) (y : B) :
  head (omap f l) = Some y → ∃ x, x ∈ l ∧ f x = Some y.
Proof.
  intros Hy. apply list_elem_of_omap.
  destruct (omap f l) as [|z zs]; [done|]. injection Hy as ->. by left.
Qed.


Lemma label_candidate_black (label : string)
    (ctx : node * option node * node) (t : string) :
  label_candidate label ctx = Some t → starts_black t.
Proof.
  destruct ctx as [[tag sib] parent]. unfold label_candidate.
  destruct (contains _ _); [|done].
  destruct sib as [sib|].
  - case_decide as Hs.
    + case_decide as Hp; [done|]. intros [= <-]. by apply get_text_black.
    + intros [= <-]. by apply get_text_black.
  - case_decide as Hp; [done|]. intros [= <-]. by apply get_text_black.
Qed.

Lemma text_after_label_black (soup : node) (label t : string) :
  text_after_label soup label = Some t → starts_black t.
Proof.
  unfold text_after_label.
  intros (tag_name & _ & Hinner)%head_omap_Some.
  apply head_omap_Some in Hinner as (ctx & _ & Hc).
  by apply (label_candidate_black (lower label) ctx).
Qed.










End TextProofs.

(** ** extractors/epc_parser.py: the certificate page *)

Section CertificateProofs.
Import Parser Certificate Spec SpecExtra.

Variable lxml : string → node.
Variable select_one : node → string → option node.
Variable url_path : string → option string.
Variable float : string → option pyval.

Lemma id_from_url_shape (url : string) :
  id_from_url url_path url !! "url" = Some (PStr url)
  ∧ id_shape (id_from_url url_path url).
Proof.
  unfold id_from_url, id_shape.
  destruct (url_path url) as [path|]; [destruct (contains path token_prefix)|].
  - rewrite lookup_insert_ne by done. rewrite lookup_singleton_eq.
    rewrite lookup_insert_eq. by eauto.
  - rewrite lookup_singleton_eq, lookup_singleton_ne by done. by eauto.
  - rewrite lookup_singleton_eq, lookup_singleton_ne by done. by eauto.
Qed.

(** The fallback on the label never fails: the text after a label has a
    first token. *)
Lemma id_from_label_shape (soup : node) (record : epc_record) (url : string) :
  record !! "url" = Some (PStr url) → id_shape record →
  ∃ record', id_from_label soup record = Ok record'
             ∧ record' !! "url" = Some (PStr url) ∧ id_shape record'.
Proof.
  intros Hurl Hid. unfold id_from_label.
  destruct (truthy (get record "id")); [by eauto|].
  destruct (text_after_label soup "Certificate number") as [id_text|] eqn:Ht;
    [|by eauto].
  case_decide; [by eauto|].
  destruct (starts_black_tokens id_text (text_after_label_black _ _ _ Ht))
    as (token & _ & -> & _).
  eexists. split; [done|]. split.
  - by rewrite lookup_insert_ne.
  - right. rewrite lookup_insert_eq. eauto.
Qed.

Lemma first_text_black (soup : node) (selectors : list string) (t : string) :
  first_text select_one soup selectors = Some t → starts_black t.
Proof.
  unfold first_text. intros (sel & _ & Hsel)%head_omap_Some.
  destruct (select_one soup sel) as [el|]; [|done].
  case_decide; [done|]. injection Hsel as <-. by apply get_text_black.
Qed.

Lemma or_else_black (a b : option string) (t : string) :
  (∀ s, a = Some s → starts_black s) → (∀ s, b = Some s → starts_black s) →
  or_else a b = Some t → starts_black t.
Proof.
  intros Ha Hb. unfold or_else. destruct a as [s|]; [|by auto].
  case_decide; [by auto|]. intros [= <-]. by apply Ha.
Qed.

Ltac lookup_through :=
  repeat (rewrite lookup_insert_ne by done);
  try rewrite lookup_insert_eq.


End CertificateProofs.

(** ** main.py: the crawl *)

Section CrawlProofs.
Import Parser Certificate Validation Spec SpecExtra Pipeline.

Variable lxml : string → node.
Variable select_one : node → string → option node.
Variable url_path : string → option string.
Variable float : string → option pyval.
Variable urljoin : string → string → string.
Variable dateutil_parse : string → option datetime.
Variable utcnow : Z.
Variable repr : pyval → string.
Variable fetch : nat → string → option string.

Ltac lookup_through :=
  repeat (rewrite lookup_insert_ne by done);
  try rewrite lookup_insert_eq.

(** The [id] and the [rating] of a parsed certificate. *)
Lemma parse_certificate_page_shape (html url : string) :
  ∃ record,
    parse_certificate_page lxml select_one url_path float html url = Ok record
    ∧ id_shape record ∧ rating_shape record.
Proof.
  destruct (id_from_url_shape url_path url) as [Hurl0 Hid0].
  destruct (id_from_label_shape (lxml html) _ url Hurl0 Hid0)
    as (record0 & Hlabel & Hurl & Hid).
  unfold parse_certificate_page. rewrite Hlabel.
  cbn [mbind result_bind]. eexists. split; [reflexivity|]. split.
  - unfold id_shape. by lookup_through.
  - unfold rating_shape, get. lookup_through.
    destruct (or_else _ _) as [t|] eqn:Ht; [|by left].
    right. exists t. split; [done|].
    apply (or_else_black _ _ t) in Ht; [done| |].
    + intros s. apply (first_text_black select_one).
    + intros s. apply text_after_label_black.
Qed.

Lemma defaults_values (k : string) (v : pyval) :
  (k, v) ∈ defaults →
  v = PNone ∨ (v = PList [] ∧ (k = "features" ∨ k = "changes")).
Proof.
  unfold defaults. intros H.
  repeat (apply elem_of_cons in H as [H|H]; [injection H as -> ->; by auto|]).
  by apply elem_of_nil in H.
Qed.

(** A key that the loop over the defaults finds missing gets a default. *)
Lemma fill_defaults_lookup_cases (l : list (string * pyval))
    (record : epc_record) (k : string) (v : pyval) :
  fill_defaults record l !! k = Some v →
  record !! k = Some v ∨ (record !! k = None ∧ (k, v) ∈ l).
Proof.
  revert record. induction l as [|[key default] l IH]; intros record.
  - by left.
  - cbn [fill_defaults foldl]. fold (fill_defaults (setdefault record key default) l).
    intros [Hk|[Hk Hin]]%IH.
    + unfold setdefault in Hk. destruct (record !! key) eqn:Hkey; [by left|].
      destruct (decide (key = k)) as [->|Hne].
      * rewrite lookup_insert_eq in Hk. injection Hk as ->.
        right. split; [done|by left].
      * rewrite lookup_insert_ne in Hk by done. by left.
    + right. split; [|by right].
      unfold setdefault in Hk. destruct (record !! key) eqn:Hkey; [done|].
      destruct (decide (key = k)) as [->|Hne]; [done|].
      by rewrite lookup_insert_ne in Hk.
Qed.

Lemma derive_expired_lookup (record record' : epc_record) (k : string) :
  derive_expired dateutil_parse utcnow record = Ok record' →
  k ≠ "expired" → record' !! k = record !! k.
Proof.
  unfold derive_expired. destruct (is_none (get record "expired")).
  - destruct (is_expired _ _ _ _) as [e|]; [|done].
    intros [= <-] Hk. by rewrite lookup_insert_ne.
  - by intros [= <-] _.
Qed.

Lemma derive_expired_raises (record : epc_record) (e : exn) :
  derive_expired dateutil_parse utcnow record = Raise e → e = TypeError.
Proof.
  unfold derive_expired, is_expired, datetime_lt.
  destruct (is_none _); [|done].
  destruct (truthy _); [|done].
  destruct (parse_date _ _) as [dt|]; [|done].
  destruct (Bool.eqb _ _); [done|]. by intros [= <-].
Qed.

Local Opaque defaults.

(** What [normalize_record] leaves under a key other than [expired]: the
    value that was there, or the default. *)
Lemma normalize_record_lookup (record record' : epc_record) (k : string)
    (v : pyval) :
  normalize_record dateutil_parse utcnow record = Ok record' →
  k ≠ "expired" →
  record' !! k = Some v →
  record !! k = Some v ∨ (record !! k = None ∧ (k, v) ∈ defaults).
Proof.
  rewrite (normalize_record_steps dateutil_parse utcnow record).
  intros Hn Hk. rewrite (derive_expired_lookup _ _ _ Hn Hk).
  apply fill_defaults_lookup_cases.
Qed.

Lemma normalize_record_keeps (record record' : epc_record) (k : string)
    (v : pyval) :
  normalize_record dateutil_parse utcnow record = Ok record' →
  k ≠ "expired" →
  record !! k = Some v → record' !! k = Some v.
Proof.
  rewrite (normalize_record_steps dateutil_parse utcnow record).
  intros Hn Hk Hv. rewrite (derive_expired_lookup _ _ _ Hn Hk).
  exact (fill_defaults_lookup_present defaults record k v Hv).
Qed.

(** The only exception of [normalize_record] is the [TypeError] of
    comparing a date that has a time zone with the clock, which has none. *)
Lemma normalize_record_raises (record : epc_record) (e : exn) :
  normalize_record dateutil_parse utcnow record = Raise e → e = TypeError.
Proof.
  rewrite (normalize_record_steps dateutil_parse utcnow record).
  apply derive_expired_raises.
Qed.

Lemma normalize_record_schema (record record' : epc_record) (key : string) :
  normalize_record dateutil_parse utcnow record = Ok record' →
  key ∈ defaults.*1 → is_Some (record' !! key).
Proof.
  rewrite (normalize_record_steps dateutil_parse utcnow record).
  intros Hn Hkey. apply (derive_expired_keys _ _ _ _ _ Hn).
  exact (fill_defaults_keys defaults record key Hkey).
Qed.

Lemma rating_shape_normalize (record record' : epc_record) :
  rating_shape record →
  normalize_record dateutil_parse utcnow record = Ok record' →
  rating_shape record'.
Proof.
  intros [Hnone|(s & Hs & Hb)] Hn.
  - left. unfold get in *.
    destruct (record' !! "rating") as [v|] eqn:Hv; [|done]. simpl.
    destruct (normalize_record_lookup _ _ "rating" v Hn ltac:(done) Hv)
      as [Hv'|[_ Hv']].
    + by rewrite Hv' in Hnone.
    + apply defaults_values in Hv' as [->|[_ [?|?]]]; done.
  - right. exists s. split; [|done].
    by apply (normalize_record_keeps _ _ _ _ Hn).
Qed.

Lemma id_shape_normalize (record record' : epc_record) :
  id_shape record →
  normalize_record dateutil_parse utcnow record = Ok record' →
  id_typed record'.
Proof.
  intros Hid Hn Htruthy. unfold get in Htruthy.
  destruct (record' !! "id") as [v|] eqn:Hv; [|done]. simpl in Htruthy.
  destruct (normalize_record_lookup _ _ "id" v Hn ltac:(done) Hv)
    as [Hv'|[_ Hv']].
  - destruct Hid as [Hid|[s Hid]]; [congruence|].
    rewrite Hid in Hv'. injection Hv' as <-. eauto.
  - apply defaults_values in Hv' as [->|[-> _]]; done.
Qed.

(** [validate_epc_record] returns on a record whose rating is [None] or has
    a token. *)
Lemma validate_epc_record_returns (record : epc_record) :
  rating_shape record →
  ∃ verdict, validate_epc_record repr record = Ok verdict.
Proof.
  intros Hshape. rewrite validate_epc_record_steps.
  assert (∃ errors, check_rating repr record (required_errors record)
                    = Ok errors) as [errors ->].
  { destruct Hshape as [Hnone|(s & Hs & Hb)].
    - unfold check_rating. rewrite Hnone. by eauto.
    - destruct (starts_black_tokens s Hb) as (_ & tok & _ & Htok).
      rewrite (check_rating_verdict repr record s tok _ Hs Htok). by eauto. }
  cbn [mbind result_bind]. by eauto.
Qed.

Lemma bind_Ok_inv {A B : Type} (m : result A) (k : A → result B) (b : B) :
  m ≫= k = Ok b → ∃ a, m = Ok a ∧ k a = Ok b.
Proof. destruct m as [a|e]; [by eauto|done]. Qed.

Lemma bind_Raise_inv {A B : Type} (m : result A) (k : A → result B)
    (e : exn) :
  m ≫= k = Raise e → m = Raise e ∨ ∃ a, m = Ok a ∧ k a = Raise e.
Proof. destruct m as [a|e']; [by eauto|]. intros [= <-]. by left. Qed.

Lemma rating_shape_insert_url (record : epc_record) (v : pyval) :
  rating_shape record → rating_shape (<[ "url" := v ]> record).
Proof.
  intros [Hnone|(s & Hs & Hb)].
  - left. unfold get in *. by rewrite lookup_insert_ne.
  - right. exists s. by rewrite lookup_insert_ne.
Qed.

Lemma id_shape_insert_url (record : epc_record) (v : pyval) :
  id_shape record → id_shape (<[ "url" := v ]> record).
Proof. unfold id_shape. by rewrite lookup_insert_ne. Qed.

(** What [crawl_full] keeps of a certificate. *)
Lemma crawl_record_ok (cert_html cert_url : string) (record : epc_record) :
  crawl_record lxml select_one url_path float dateutil_parse utcnow repr
               cert_html cert_url = Ok record →
  record !! "url" = Some (PStr cert_url)
  ∧ id_typed record
  ∧ (∀ key, key ∈ defaults.*1 → is_Some (record !! key))
  ∧ ∃ verdict, validate_epc_record repr record = Ok verdict.
Proof.
  unfold crawl_record. intros H.
  apply bind_Ok_inv in H as (parsed & Hp & H).
  apply bind_Ok_inv in H as (normal & Hn & H).
  apply bind_Ok_inv in H as (verdict & Hv & H).
  injection H as <-.
  destruct (parse_certificate_page_shape cert_html cert_url)
    as (parsed' & Hp' & Hid & Hrating).
  rewrite Hp in Hp'. injection Hp' as <-.
  split_and!.
  - apply (normalize_record_keeps _ _ _ _ Hn); [done|].
    apply lookup_insert_eq.
  - apply (id_shape_normalize _ _ (id_shape_insert_url _ _ Hid) Hn).
  - intros key. apply (normalize_record_schema _ _ _ Hn).
  - exists verdict. exact Hv.
Qed.

Lemma crawl_record_raise (cert_html cert_url : string) (e : exn) :
  crawl_record lxml select_one url_path float dateutil_parse utcnow repr
               cert_html cert_url = Raise e →
  e = TypeError.
Proof.
  unfold crawl_record. intros H.
  destruct (parse_certificate_page_shape cert_html cert_url)
    as (parsed & Hp & Hid & Hrating).
  apply bind_Raise_inv in H as [H|(parsed' & Hp' & H)]; [congruence|].
  rewrite Hp in Hp'. injection Hp' as <-.
  apply bind_Raise_inv in H as [H|(normal & Hn & H)].
  { exact (normalize_record_raises _ _ H). }
  pose proof (rating_shape_normalize _ _
                (rating_shape_insert_url _ _ Hrating) Hn) as Hshape.
  destruct (validate_epc_record_returns normal Hshape) as [verdict Hv].
  apply bind_Raise_inv in H as [H|(verdict' & _ & H)]; congruence.
Qed.

Abbreviation crawl_certificate' :=
  (crawl_certificate lxml select_one url_path float dateutil_parse utcnow
                     repr fetch).
Abbreviation crawl_listing' :=
  (crawl_listing lxml select_one url_path float urljoin dateutil_parse utcnow
                 repr fetch).
Abbreviation crawl_full' :=
  (crawl_full lxml select_one url_path float urljoin dateutil_parse utcnow
              repr fetch).

(** The loop over the certificate URLs of a listing page. *)
Lemma crawl_certificates_loop (P : string → Prop) (cert_urls : list string)
    (st : nat * list epc_record) :
  (∀ u, u ∈ cert_urls → P u) →
  Forall (λ record, ∃ u, P u ∧ crawled repr u record) st.2 →
  Forall (λ record, ∃ u, P u ∧ crawled repr u record)
         (foldl crawl_certificate' st cert_urls).2.
Proof.
  revert st. induction cert_urls as [|u l IH]; intros [n acc] Hl Hacc.
  - exact Hacc.
  - cbn [foldl]. apply IH; [intros u' Hu'; apply Hl; by right|].
    unfold crawl_certificate.
    destruct (fetch n u) as [cert_html|]; [|exact Hacc].
    destruct (crawl_record _ _ _ _ _ _ _ cert_html u) as [record|e] eqn:Hr;
      [|exact Hacc].
    cbn [snd]. apply Forall_app. split; [exact Hacc|].
    apply Forall_singleton. exists u. split; [apply Hl; by left|].
    exact (crawl_record_ok _ _ _ Hr).
Qed.

(** The loop over the listing URLs. *)
Lemma crawl_listings_loop (all : list string) (listing_urls : list string)
    (st : nat * list epc_record) :
  listing_urls ⊆ all →
  Forall (λ record, ∃ u, listed urljoin lxml fetch all u
                         ∧ crawled repr u record) st.2 →
  Forall (λ record, ∃ u, listed urljoin lxml fetch all u
                         ∧ crawled repr u record)
         (foldl crawl_listing' st listing_urls).2.
Proof.
  revert st. induction listing_urls as [|url l IH]; intros [n acc] Hl Hacc.
  - exact Hacc.
  - cbn [foldl]. apply IH; [set_solver|].
    unfold crawl_listing.
    destruct (fetch n url) as [listing_html|] eqn:Hfetch; [|exact Hacc].
    apply crawl_certificates_loop; [|exact Hacc].
    intros u Hu. exists n, url, listing_html. split_and!; [|done|done].
    apply Hl. by left.
Qed.


Lemma crawl_full_typed (listing_urls : list string) :
  Forall id_typed (crawl_full' listing_urls).
Proof.
  eapply Forall_impl.
  - unfold crawl_full. by apply (crawl_listings_loop listing_urls).
  - by intros record (u & _ & _ & Hty & _).
Qed.

(** X11.  The records of a crawl never take [deduplicate_records] or
    [detect_changes] outside the typing of the [id]: the run after the crawl
    is defined in both modes, and without monitoring it hands the
    deduplicated records to the export and leaves the files alone. *)
Theorem run_records_crawl_full (listing_urls : list string)
    (fs : Tracker.filesystem) (state_file : string) :
  is_Some (run_records repr true fs state_file (crawl_full' listing_urls))
  ∧ ∃ out,
      Main.deduplicate_records (crawl_full' listing_urls) = Some out
      ∧ run_records repr false fs state_file (crawl_full' listing_urls)
        = Some (Ok (out, fs)).
Proof.
  pose proof (crawl_full_typed listing_urls) as Hty.
  unfold run_records, Main.deduplicate_records.
  destruct (dedup_loop _ Hty) as (seen & Hloop & _).
  rewrite Hloop. cbn [mbind option_bind]. split; [|by eauto].
  destruct (Tracker.load_state _ _ _) as [previous_ids|e]; [|by eauto].
  rewrite detect_changes_eq; [by eauto|].
  apply ids_typed. apply Forall_forall.
  intros rec [[k rec'] [-> Hin]]%list_elem_of_fmap.
  destruct (dedup_loop _ Hty) as (seen' & Hloop' & _ & Hseen & _).
  rewrite Hloop in Hloop'. injection Hloop' as <-.
  exists k. apply (labelled_id (crawl_full' listing_urls)).
  by apply last_seen_labelled, Hseen.
Qed.

(** The listing loop when no listing page loads. *)
Lemma crawl_listings_unfetched (listing_urls : list string)
    (st : nat * list epc_record) :
  (∀ n url, url ∈ listing_urls → fetch n url = None) →
  (foldl crawl_listing' st listing_urls).2 = st.2.
Proof.
  revert st. induction listing_urls as [|url l IH]; intros [n acc] Hl.
  - done.
  - cbn [foldl]. unfold crawl_listing at 2.
    rewrite (Hl n url) by (by left).
    rewrite IH; [done|]. intros n' url' Hin. apply Hl. by right.
Qed.

(** X12.  When no listing page of the crawl loads, [crawl_full] returns no
    record. *)
Theorem crawl_full_unfetched (listing_urls : list string) :
  (∀ n url, url ∈ listing_urls → fetch n url = None) →
  crawl_full lxml select_one url_path float urljoin dateutil_parse utcnow repr
             fetch listing_urls = [].
Proof.
  intros Hl. unfold crawl_full.
  by rewrite crawl_listings_unfetched.
Qed.

End CrawlProofs.

(** ** extractors/utils_validation.py: numbers and years *)

Section ParsingProofs.
Import Parsing SpecExtra.

Variable float : string → option pyval.



















End ParsingProofs.

(** ** extractors/utils_validation.py: the errors of a record *)

Section ValidateProofs.
Import Validation Spec.

Variable repr : pyval → string.

Lemma missing_error_not_expired (field : string) :
  missing_error field ≠ expired_error.
Proof.
  unfold missing_error, expired_error. intros H.
  apply (f_equal (String.get 0)) in H. discriminate H.
Qed.

Lemma check_rating_errors (record : epc_record) (errors errors' : list string) :
  check_rating repr record errors = Ok errors' →
  errors' = errors
  ∨ errors' = errors ++ [rating_error repr (get record "rating")].
Proof.
  unfold check_rating. destruct (truthy _); [|by intros [= <-]; left].
  destruct (last _) as [band|]; [|done].
  case_decide; intros [= <-]; by auto.
Qed.

Lemma checked_errors_not_expired (record : epc_record)
    (errors : list string) :
  check_rating repr record (required_errors record) = Ok errors →
  expired_error ∉ errors.
Proof.
  intros [->| ->]%check_rating_errors.
  - intros [field Hf]%required_errors_missing.
    by apply (missing_error_not_expired field).
  - rewrite elem_of_app, list_elem_of_singleton.
    intros [[field Hf]%required_errors_missing|Hr].
    + by apply (missing_error_not_expired field).
    + by apply (rating_error_not_expired repr (get record "rating")).
Qed.

(** X16.  The verdict of [validate_epc_record] is [True] exactly when it
    lists no error, and for each of the four required fields it lists the
    error of a missing field exactly when the value is absent or falsy. *)
Theorem validate_epc_record_missing (record : epc_record) (ok : bool)
    (errors : list string) :
  validate_epc_record repr record = Ok (ok, errors) →
  (ok = true ↔ errors = [])
  ∧ ∀ field, field ∈ required_fields →
             missing_error field ∈ errors
             ↔ truthy (get record field) = false.
Proof.
  rewrite validate_epc_record_steps.
  intros (checked & Hc & [= <- <-])%bind_Ok_inv. split.
  { split; [by intros ?%bool_decide_eq_true|by intros ->]. }
  intros field Hfield.
  rewrite (validate_tail _ _ _ (missing_error_not_expired field)).
  assert (missing_error field ∈ checked
          ↔ missing_error field ∈ required_errors record) as ->.
  { apply check_rating_errors in Hc as [->| ->]; [done|].
    rewrite elem_of_app, list_elem_of_singleton.
    pose proof (rating_error_not_missing repr (get record "rating") field).
    naive_solver. }
  unfold required_errors, required_fields in Hfield |- *. cbn [foldl].
  repeat (apply elem_of_cons in Hfield as [->|Hfield]);
    [..|by apply elem_of_nil in Hfield];
    repeat match goal with
           | |- context [truthy ?v] => destruct (truthy v)
           end;
    cbn [app]; rewrite ?elem_of_cons, ?elem_of_nil;
    (split; [|by auto]); intros H; repeat destruct H as [H|H]; done.
Qed.

End ValidateProofs.

(** ** extractors/utils_validation.py: what [normalize_record] adds and
    what [validate_epc_record] reports *)

Lemma expired_default : "expired" ∈ Validation.defaults.*1.
Proof. unfold Validation.defaults. set_solver. Qed.

Section NormalizeProofs.
Import Validation Spec SpecExtra.

Variable dateutil_parse : string → option datetime.
Variable utcnow : Z.
Variable repr : pyval → string.

Local Opaque defaults.

(** Under a key whose default is [None], the loop over the defaults changes
    nothing that [get] can tell. *)
Lemma fill_defaults_get (l : list (string * pyval)) (record : epc_record)
    (k : string) :
  (∀ v, (k, v) ∈ l → v = PNone) →
  get (fill_defaults record l) k = get record k.
Proof.
  revert record. induction l as [|[key default] l IH]; intros record Hl.
  - done.
  - cbn [fill_defaults foldl].
    fold (fill_defaults (setdefault record key default) l).
    rewrite IH by (intros v Hv; apply Hl; by right).
    unfold setdefault. destruct (record !! key) eqn:Hkey; [done|].
    destruct (decide (key = k)) as [->|Hne].
    + rewrite get_insert_eq. unfold get. rewrite Hkey.
      apply Hl. by left.
    + by rewrite get_insert_ne.
Qed.

Lemma defaults_get (record : epc_record) (k : string) :
  k ≠ "features" → k ≠ "changes" →
  get (fill_defaults record defaults) k = get record k.
Proof.
  intros Hf Hc. apply fill_defaults_get.
  intros v [->|[_ [?|?]]]%defaults_values; done.
Qed.

Lemma truthy_str (v : pyval) (s : string) :
  v = PStr s → truthy v = negb (String.eqb s "").
Proof. by intros ->. Qed.

(** The [expired] flag after the loop over the defaults. *)
Lemma derive_expired_get (record record' : epc_record) :
  derive_expired dateutil_parse utcnow record = Ok record' →
  get record' "expired" =
  if is_none (get record "expired")
  then match parse_date dateutil_parse (get record "validtillDate") with
       | Some dt => PBool (wall dt <? utcnow)%Z
       | None => PNone
       end
  else get record "expired".
Proof.
  unfold derive_expired, is_expired.
  destruct (is_none (get record "expired")); [|by intros [= <-]].
  destruct (truthy (get record "validtillDate")) eqn:Htruthy.
  - destruct (parse_date _ _) as [dt|].
    + unfold datetime_lt. destruct (Bool.eqb _ _); [|done].
      intros [= <-]. by rewrite get_insert_eq.
    + intros [= <-]. by rewrite get_insert_eq.
  - unfold parse_date. rewrite Htruthy.
    intros [= <-]. by rewrite get_insert_eq.
Qed.

Lemma derive_expired_raises_iff (record : epc_record) (e : exn) :
  derive_expired dateutil_parse utcnow record = Raise e ↔
  e = TypeError ∧ is_none (get record "expired") = true
  ∧ ∃ s dt, get record "validtillDate" = PStr s ∧ s ≠ ""
            ∧ dateutil_parse s = Some dt ∧ aware dt = true.
Proof.
  unfold derive_expired, is_expired, parse_date, datetime_lt.
  destruct (is_none (get record "expired")); [|naive_solver].
  destruct (get record "validtillDate") as [|b|z|s|l|d] eqn:Hv;
    try (destruct (truthy _); naive_solver).
  cbn [truthy]. destruct (String.eqb_spec s "") as [->|Hne];
    cbn [negb]; [naive_solver|].
  destruct (dateutil_parse s) as [dt|] eqn:Hdt; [|naive_solver].
  cbn [default aware]. destruct (aware dt) eqn:Haware; cbn [Bool.eqb].
  - split; [intros [= <-]|intros [-> _]; done].
    split_and!; [done|done|]. exists s, dt. by rewrite Haware.
  - split; [done|]. intros (_ & _ & s' & dt' & [= <-] & _ & Hdt' & Ha).
    congruence.
Qed.

Lemma derive_expired_flagged (record record' : epc_record) (v : pyval) :
  record !! "expired" = Some v → v ≠ PNone →
  derive_expired dateutil_parse utcnow record = Ok record' →
  record' = record.
Proof.
  intros Hv Hnone. unfold derive_expired, get. rewrite Hv. cbn [default].
  destruct v; [done|by intros [= <-]..].
Qed.

(** X17.  [normalize_record] raises exactly when it has to derive the
    [expired] flag and the [validtillDate] is a text that the date parser
    reads as a date with a time zone; the exception is the [TypeError] of
    comparing that date with [utcnow()], which has none. *)
Theorem normalize_record_raises_iff (record : epc_record) (e : exn) :
  normalize_record dateutil_parse utcnow record = Raise e ↔
  e = TypeError ∧ is_none (get record "expired") = true
  ∧ ∃ s dt, get record "validtillDate" = PStr s ∧ s ≠ ""
            ∧ dateutil_parse s = Some dt ∧ aware dt = true.
Proof.
  rewrite (normalize_record_steps dateutil_parse utcnow record).
  rewrite derive_expired_raises_iff.
  by rewrite !defaults_get.
Qed.

(** X18.  [normalize_record] overwrites nothing but an [expired] that is
    [None]: every other value of the record is kept; and the keys of the
    result are the keys of the record and the keys of the schema. *)
Theorem normalize_record_preserves (record record' : epc_record) :
  normalize_record dateutil_parse utcnow record = Ok record' →
  (∀ k v, record !! k = Some v → k ≠ "expired" ∨ v ≠ PNone →
          record' !! k = Some v)
  ∧ (∀ k, is_Some (record' !! k) ↔ is_Some (record !! k) ∨ k ∈ defaults.*1).
Proof.
  intros Hn. split.
  - intros k v Hv [Hk|Hnone].
    + exact (normalize_record_keeps _ _ _ _ _ _ Hn Hk Hv).
    + revert Hn. rewrite (normalize_record_steps dateutil_parse utcnow record).
      pose proof (fill_defaults_lookup_present defaults record k v Hv) as Hv'.
      destruct (decide (k = "expired")) as [->|Hk].
      * intros Hn. by rewrite (derive_expired_flagged _ _ v Hv' Hnone Hn).
      * intros Hn. by rewrite (derive_expired_lookup _ _ _ _ _ Hn Hk).
  - intros k. split.
    + intros [v Hv]. destruct (decide (k = "expired")) as [->|Hk].
      * right. exact expired_default.
      * destruct (normalize_record_lookup _ _ _ _ _ _ Hn Hk Hv)
          as [Hv'|[_ Hin]]; [by eauto|].
        right. apply list_elem_of_fmap. by exists (k, v).
    + intros [[v Hv]|Hin].
      * destruct (decide (k = "expired")) as [->|Hk].
        -- exact (normalize_record_schema _ _ _ _ _ Hn expired_default).
        -- exists v. exact (normalize_record_keeps _ _ _ _ _ _ Hn Hk Hv).
      * exact (normalize_record_schema _ _ _ _ _ Hn Hin).
Qed.

Lemma normalize_record_get (record record' : epc_record) (k : string) :
  normalize_record dateutil_parse utcnow record = Ok record' →
  k ≠ "expired" → k ≠ "features" → k ≠ "changes" →
  get record' k = get record k.
Proof.
  rewrite (normalize_record_steps dateutil_parse utcnow record).
  intros Hn Hk Hf Hc. unfold get at 1.
  rewrite (derive_expired_lookup _ _ _ _ _ Hn Hk).
  by apply defaults_get.
Qed.

Lemma normalize_record_get_expired (record record' : epc_record) :
  normalize_record dateutil_parse utcnow record = Ok record' →
  get record' "expired" =
  if is_none (get record "expired")
  then match parse_date dateutil_parse (get record "validtillDate") with
       | Some dt => PBool (wall dt <? utcnow)%Z
       | None => PNone
       end
  else get record "expired".
Proof.
  rewrite (normalize_record_steps dateutil_parse utcnow record).
  intros Hn. rewrite (derive_expired_get _ _ Hn).
  by rewrite !defaults_get.
Qed.

(** X19.  The [expired] flag of a normalised record: a flag that the record
    had is kept; a flag that was missing or [None] is derived, [True] when
    the [validtillDate] parses to a date before [utcnow()], [False] when it
    parses to a later one, and [None] when there is no date or it does not
    parse. *)
Theorem normalize_record_expired (record record' : epc_record) :
  normalize_record dateutil_parse utcnow record = Ok record' →
  record' !! "expired" = Some
    (if is_none (get record "expired")
     then match parse_date dateutil_parse (get record "validtillDate") with
          | Some dt => PBool (wall dt <? utcnow)%Z
          | None => PNone
          end
     else get record "expired").
Proof.
  intros Hn. rewrite <- (normalize_record_get_expired _ _ Hn).
  destruct (normalize_record_schema _ _ _ _ "expired" Hn expired_default)
    as [v Hv].
  unfold get. by rewrite Hv.
Qed.

(** X20.  After [normalize_record], [validate_epc_record] reports a missing
    [expired] flag exactly for a record that came without a flag and with a
    [validtillDate] that does not parse as a date. *)
Theorem validate_normalized_expired (record record' : epc_record)
    (ok : bool) (errors : list string) :
  normalize_record dateutil_parse utcnow record = Ok record' →
  validate_epc_record repr record' = Ok (ok, errors) →
  expired_error ∈ errors ↔
  is_none (get record "expired") = true
  ∧ truthy (get record "validtillDate") = true
  ∧ parse_date dateutil_parse (get record "validtillDate") = None.
Proof.
  intros Hn. rewrite validate_epc_record_steps.
  intros (checked & Hc & [= _ <-])%bind_Ok_inv.
  pose proof (checked_errors_not_expired repr _ _ Hc) as Hfresh.
  rewrite (normalize_record_get _ _ "validtillDate" Hn) by done.
  rewrite (normalize_record_get_expired _ _ Hn).
  destruct (truthy (get record "validtillDate")); cbn [andb].
  2:{ naive_solver. }
  destruct (is_none (get record "expired")) eqn:Hnone.
  - destruct (parse_date _ _) as [dt|]; cbn [is_none].
    + naive_solver.
    + rewrite elem_of_app, list_elem_of_singleton. naive_solver.
  - rewrite Hnone. naive_solver.
Qed.

End NormalizeProofs.

(** ** extractors/epc_parser.py: where the fields of a certificate come
    from *)

Section CertificateFields.
Import Parser Certificate Validation Spec SpecExtra Pipeline.

Variable lxml : string → node.
Variable select_one : node → string → option node.
Variable url_path : string → option string.
Variable float : string → option pyval.
Variable dateutil_parse : string → option datetime.
Variable utcnow : Z.
Variable repr : pyval → string.

Ltac lookup_through :=
  repeat (rewrite lookup_insert_ne by done);
  try rewrite lookup_insert_eq.



Lemma id_from_url_other (url k : string) :
  k ≠ "url" → k ≠ "id" → id_from_url url_path url !! k = None.
Proof.
  intros Hu Hi. unfold id_from_url.
  destruct (url_path url) as [path|]; [destruct (contains path token_prefix)|].
  - rewrite lookup_insert_ne by done. by rewrite lookup_singleton_ne.
  - by rewrite lookup_singleton_ne.
  - by rewrite lookup_singleton_ne.
Qed.

Lemma id_from_label_other (soup : node) (record record' : epc_record)
    (k : string) :
  id_from_label soup record = Ok record' → k ≠ "id" →
  record' !! k = record !! k.
Proof.
  unfold id_from_label. intros H Hk.
  destruct (truthy (get record "id")); [by injection H as <-|].
  destruct (text_after_label soup "Certificate number") as [id_text|];
    [|by injection H as <-].
  case_decide; [by injection H as <-|].
  destruct (head (split id_text)) as [token|]; [|done].
  injection H as <-. by rewrite lookup_insert_ne.
Qed.

(** The fields of a parsed certificate that the crawl looks at. *)
Lemma parse_certificate_page_fields (html url : string) :
  ∃ record,
    parse_certificate_page lxml select_one url_path float html url = Ok record
    ∧ id_shape record ∧ rating_shape record
    ∧ record !! "expired" = None
    ∧ record !! "validtillDate"
      = Some (of_text (text_after_label (lxml html) "Expiry date"))
    ∧ ∃ record0,
        id_from_label (lxml html) (id_from_url url_path url) = Ok record0
        ∧ record !! "id" = record0 !! "id".
Proof.
  destruct (id_from_url_shape url_path url) as [Hurl0 Hid0].
  destruct (id_from_label_shape (lxml html) _ url Hurl0 Hid0)
    as (record0 & Hlabel & Hurl & Hid).
  unfold parse_certificate_page. rewrite Hlabel.
  cbn [mbind result_bind]. eexists. split; [reflexivity|]. split_and!.
  - unfold id_shape. by lookup_through.
  - unfold rating_shape, get. lookup_through.
    destruct (or_else _ _) as [t|] eqn:Ht; [|by left].
    right. exists t. split; [done|].
    apply (or_else_black _ _ t) in Ht; [done| |].
    + intros s. apply (first_text_black select_one).
    + intros s. apply text_after_label_black.
  - lookup_through.
    rewrite (id_from_label_other _ _ _ "expired" Hlabel) by done.
    by apply id_from_url_other.
  - by lookup_through.
  - exists record0. split; [done|]. by lookup_through.
Qed.

(** X22.  The [id] of a parsed certificate is read off the URL whenever its
    path has the segment [/energy-certificate/] with something other than
    slashes after its last occurrence; the page is not consulted. *)
Theorem parse_certificate_page_id_url (html url path : string) :
  url_path url = Some path →
  contains path token_prefix = true →
  strip_slash (split_last token_prefix path) ≠ "" →
  ∃ record,
    parse_certificate_page lxml select_one url_path float html url = Ok record
    ∧ record !! "id"
      = Some (PStr (strip_slash (split_last token_prefix path))).
Proof.
  intros Hpath Hc Hne.
  destruct (parse_certificate_page_fields html url)
    as (record & Hp & _ & _ & _ & _ & record0 & Hlabel & Hid).
  exists record. split; [done|]. rewrite Hid.
  revert Hlabel. unfold id_from_label, id_from_url.
  rewrite Hpath, Hc. rewrite get_insert_eq. cbn [truthy].
  destruct (String.eqb_spec (strip_slash (split_last token_prefix path)) "")
    as [Heq|_]; [done|].
  cbn [negb]. intros [= <-]. by rewrite lookup_insert_eq.
Qed.






End CertificateFields.

(** ** outputs/exporters.py: the CSV file *)

Section ExportProofs.
Import Exporters Spec.

Lemma elem_of_fieldnames (records : list epc_record) (key : string) :
  key ∈ fieldnames records ↔ ∃ rec, rec ∈ records ∧ is_Some (rec !! key).
Proof.
  unfold fieldnames. rewrite sorted_set_elem, elem_of_union_list. split.
  - intros (X & [rec [-> Hrec]]%list_elem_of_fmap & Hkey).
    exists rec. split; [done|]. by apply elem_of_dom.
  - intros (rec & Hrec & Hkey). exists (dom rec). split.
    + apply list_elem_of_fmap. by exists rec.
    + by apply elem_of_dom.
Qed.

Lemma dict_to_list_row (records : list epc_record) (rec : epc_record) :
  rec ∈ records →
  dict_to_list (fieldnames records) rec =
  Some ((λ key, default (PStr "") (rec !! key)) <$> fieldnames records).
Proof.
  intros Hrec. unfold dict_to_list. rewrite decide_True; [done|].
  apply set_eq. intros key.
  rewrite elem_of_difference, elem_of_list_to_set, elem_of_fieldnames,
    elem_of_dom.
  split; [|by intros ?%elem_of_empty]. intros [Hkey Hno]. destruct Hno. eauto.
Qed.

(** X26.  [export_csv] never meets the [ValueError] of a row with a key
    outside the header.  The header lists every key of every record once, in
    increasing order; an empty list of records gives an empty file; and
    every record gives one row, with as many cells as the header and the
    empty text where the record has no value. *)
Theorem export_csv_rows (records : list epc_record) :
  ∃ rows,
    export_csv records = Some rows
    ∧ sorted_listing (records ≫= λ rec, (map_to_list rec).*1)
                     (fieldnames records)
    ∧ match records with
      | [] => rows = []
      | _ =>
          rows =
          (PStr <$> fieldnames records)
            :: ((λ rec, (λ key, default (PStr "") (rec !! key))
                          <$> fieldnames records) <$> records)
      end.
Proof.
  assert (mapM (dict_to_list (fieldnames records)) records =
          Some ((λ rec, (λ key, default (PStr "") (rec !! key))
                          <$> fieldnames records) <$> records)) as Hrows.
  { apply mapM_Some. apply Forall2_fmap_r, Forall_Forall2_diag.
    apply Forall_forall. intros rec Hrec. by apply dict_to_list_row. }
  assert (sorted_listing (records ≫= λ rec, (map_to_list rec).*1)
                         (fieldnames records)) as Hfields.
  { apply sorted_set_listing_of. intros key.
    rewrite <- sorted_set_elem. fold (fieldnames records).
    rewrite elem_of_fieldnames, list_elem_of_bind.
    split; intros (rec & H1 & H2); exists rec.
    - split; [|done]. destruct H2 as [v Hv].
      apply list_elem_of_fmap. exists (key, v). split; [done|].
      by apply elem_of_map_to_list.
    - split; [done|].
      apply list_elem_of_fmap in H1 as ([key' v] & -> & Hv).
      exists v. by apply elem_of_map_to_list. }
  destruct records as [|rec records]; [by exists []|].
  eexists. split; [|split; [exact Hfields|reflexivity]].
  unfold export_csv. by rewrite Hrows.
Qed.

End ExportProofs.

(** ** The further properties on sample inputs *)

Section ExtraWitnesses.
Import Main Tracker Parser Certificate Validation Parsing Pipeline.
Import Spec SpecExtra Samples SamplesExtra.

Lemma typed_a : Forall id_typed [ record_a ].
Proof. repeat constructor. intros _. by exists "a". Qed.

Lemma typed_crawl : Forall id_typed crawl.
Proof.
  repeat constructor.
  - intros _. by exists "abc".
  - intros H. discriminate H.
  - intros _. by exists "abc".
Qed.

Lemma detect_changes_rerun_witness :
  Forall id_typed [ record_a ]
  ∧ detect_changes [ record_a ] {[ "b" ]}
    = Some ([ record_a ], [ stub "b" ], {[ "a"; "b" ]})
  ∧ detect_changes [ record_a ] {[ "a"; "b" ]}
    = Some ([], [ stub "b" ], {[ "a"; "b" ]}).
Proof.
  assert (detect_changes [ record_a ] {[ "b" ]}
          = Some ([ record_a ], [ stub "b" ], {[ "a"; "b" ]})) as Hrun
    by by_evaluation.
  split; [exact typed_a|]. split; [exact Hrun|].
  exact (detect_changes_rerun _ _ _ _ _ typed_a Hrun).
Defined.

Lemma detect_changes_state_witness :
  let previous_ids : gset string := {[ "b" ]} in
  let updated : gset string := {[ "a"; "b" ]} in
  Forall id_typed [ record_a ]
  ∧ detect_changes [ record_a ] previous_ids
    = Some ([ record_a ], [ stub "b" ], updated)
  ∧ previous_ids ⊆ updated
  ∧ (∀ rec, rec ∈ [ record_a ] →
            rec ∈ [ record_a ] ∧
            ∃ k, id_of rec = Some k ∧ k ∈ updated ∧ k ∉ previous_ids)
  ∧ (∀ rec, rec ∈ [ stub "b" ] →
            ∃ k, rec = stub k ∧ k ∈ previous_ids ∧ k ∈ updated
                 ∧ ∀ rec', rec' ∈ [ record_a ] → id_of rec' ≠ Some k).
Proof.
  intros previous_ids updated.
  assert (detect_changes [ record_a ] previous_ids
          = Some ([ record_a ], [ stub "b" ], updated)) as Hrun
    by by_evaluation.
  split; [exact typed_a|]. split; [exact Hrun|].
  exact (detect_changes_state _ _ _ _ _ typed_a Hrun).
Defined.

Lemma deduplicate_records_idempotent_witness :
  let out := [ record_abc_2; {[ "id" := PStr "anonymous-1" ]} ] in
  Forall id_typed crawl
  ∧ deduplicate_records crawl = Some out
  ∧ deduplicate_records out = Some out.
Proof.
  intros out.
  assert (deduplicate_records crawl = Some out) as Hout by by_evaluation.
  split; [exact typed_crawl|]. split; [exact Hout|].
  exact (deduplicate_records_idempotent _ _ typed_crawl Hout).
Defined.

Lemma deduplicate_records_order_witness :
  let out := [ record_abc_2; {[ "id" := PStr "anonymous-1" ]} ] in
  Forall id_typed crawl
  ∧ deduplicate_records crawl = Some out
  ∧ omap id_of out = first_occurrences (labelled crawl).*1
  ∧ (length out ≤ length crawl)%nat.
Proof.
  intros out.
  assert (deduplicate_records crawl = Some out) as Hout by by_evaluation.
  split; [exact typed_crawl|]. split; [exact Hout|].
  exact (deduplicate_records_order _ _ typed_crawl Hout).
Defined.

Lemma run_records_first_run_witness :
  Forall id_typed crawl
  ∧ (∅ : filesystem) !! "state.json" = None
  ∧ ∃ out fs',
      deduplicate_records crawl = Some out
      ∧ run_records no_repr true ∅ "state.json" crawl = Some (Ok (out, fs'))
      ∧ load_state no_repr fs' "state.json"
        = Ok (list_to_set (omap id_of out)).
Proof.
  assert ((∅ : filesystem) !! "state.json" = None) as Hfile by reflexivity.
  split; [exact typed_crawl|]. split; [exact Hfile|].
  exact (run_records_first_run no_repr ∅ "state.json" crawl typed_crawl Hfile).
Defined.




Lemma crawl_full_unfetched_witness :
  (∀ n url, url ∈ [ "https://example.org/list" ] → no_fetch n url = None)
  ∧ crawl_full one_page band_selector no_path literal second_of no_date 0
               no_repr no_fetch [ "https://example.org/list" ] = [].
Proof.
  assert (∀ n url, url ∈ [ "https://example.org/list" ] →
                   no_fetch n url = None) as Hfetch by reflexivity.
  split; [exact Hfetch|].
  exact (crawl_full_unfetched one_page band_selector no_path literal
           second_of no_date 0 no_repr no_fetch _ Hfetch).
Defined.




Lemma normalize_record_preserves_witness :
  let record' := normalized record_a PNone in
  normalize_record no_date 0 record_a = Ok record'
  ∧ (∀ k v, record_a !! k = Some v → k ≠ "expired" ∨ v ≠ PNone →
            record' !! k = Some v)
  ∧ (∀ k, is_Some (record' !! k)
          ↔ is_Some (record_a !! k) ∨ k ∈ defaults.*1).
Proof.
  intros record'.
  assert (normalize_record no_date 0 record_a = Ok record') as Hn
    by by_evaluation.
  split; [exact Hn|].
  exact (normalize_record_preserves no_date 0 record_a record' Hn).
Defined.

Lemma normalize_record_expired_witness :
  let record := dated "1 January 2020" in
  let record' := normalized record (PBool true) in
  normalize_record one_date 200 record = Ok record'
  ∧ record' !! "expired" = Some
      (if is_none (get record "expired")
       then match parse_date one_date (get record "validtillDate") with
            | Some dt => PBool (wall dt <? 200)%Z
            | None => PNone
            end
       else get record "expired").
Proof.
  intros record record'.
  assert (normalize_record one_date 200 record = Ok record') as Hn
    by by_evaluation.
  split; [exact Hn|].
  exact (normalize_record_expired one_date 200 record record' Hn).
Defined.

Lemma validate_normalized_expired_witness :
  let record := dated "soon" in
  let record' := normalized record PNone in
  let errors := (missing_error <$> required_fields) ++ [ expired_error ] in
  normalize_record no_date 0 record = Ok record'
  ∧ validate_epc_record no_repr record' = Ok (false, errors)
  ∧ (expired_error ∈ errors ↔
     is_none (get record "expired") = true
     ∧ truthy (get record "validtillDate") = true
     ∧ parse_date no_date (get record "validtillDate") = None).
Proof.
  intros record record' errors.
  assert (normalize_record no_date 0 record = Ok record') as Hn
    by by_evaluation.
  assert (validate_epc_record no_repr record' = Ok (false, errors)) as Hv
    by by_evaluation.
  split; [exact Hn|]. split; [exact Hv|].
  exact (validate_normalized_expired no_date 0 no_repr record record' false
           errors Hn Hv).
Defined.

Lemma validate_epc_record_missing_witness :
  let errors :=
    [ missing_error "url"; missing_error "postCode";
      missing_error "address" ] in
  validate_epc_record no_repr record_a = Ok (false, errors)
  ∧ (false = true ↔ errors = [])
  ∧ ∀ field, field ∈ required_fields →
             missing_error field ∈ errors
             ↔ truthy (get record_a field) = false.
Proof.
  intros errors.
  assert (validate_epc_record no_repr record_a = Ok (false, errors)) as Hv
    by by_evaluation.
  split; [exact Hv|].
  exact (validate_epc_record_missing no_repr record_a false errors Hv).
Defined.


Lemma parse_certificate_page_id_url_witness :
  let path := "/energy-certificate/1234-5678/" in
  one_path "https://example.org/energy-certificate/1234-5678/" = Some path
  ∧ contains path token_prefix = true
  ∧ strip_slash (split_last token_prefix path) ≠ ""
  ∧ ∃ record,
      parse_certificate_page one_page band_selector one_path literal ""
        "https://example.org/energy-certificate/1234-5678/" = Ok record
      ∧ record !! "id"
        = Some (PStr (strip_slash (split_last token_prefix path))).
Proof.
  intros path.
  assert (one_path "https://example.org/energy-certificate/1234-5678/"
          = Some path) as Hpath by reflexivity.
  assert (contains path token_prefix = true) as Hc by reflexivity.
  assert (strip_slash (split_last token_prefix path) ≠ "") as Hne
    by discriminate.
  split; [exact Hpath|]. split; [exact Hc|]. split; [exact Hne|].
  exact (parse_certificate_page_id_url one_page band_selector one_path
           literal "" _ path Hpath Hc Hne).
Defined.



End ExtraWitnesses.
